(** * HashForge Lab: the hash pipeline of [app.js]

    A shallow embedding of the step catalog [STEPS], of [runHash],
    [flipChar], [countDifferentChars] and [runAvalanche], and the
    properties of the pipeline evaluator established on it.

    Modelling conventions.
    - A JavaScript string is the list of its UTF-16 code units
      ([ustring]); [password.length] is the length of that list.  Strings
      that the program builds out of ASCII characters only (hex digests,
      step ids, labels) are Rocq [string]s.
    - A JavaScript Number holding an integer is a [Z].  The product in
      the seed, [password.length * 2166136261], exceeds 2^53 from a
      password of 4158187 code units on; it is rounded as the
      multiplication of doubles rounds it ([JS.roundDouble]).  Every
      other Number the modelled code computes from an accumulator in
      [0, 2^32) is an integer of magnitude below 2^53 as long as the
      input text has fewer than 2^37 code units, so that arithmetic on
      doubles is exact and [Z] arithmetic reproduces it.  The 32-bit
      coercions ([ToInt32], [ToUint32]) behind the bitwise operators and
      [Math.imul] are written out.
    - A BigInt is a [Z].
    - A thrown exception is the [Throw] case of [result]. *)

From Stdlib Require Import ZArith Zpow_facts List Permutation String Ascii Bool Lia.
Import ListNotations.

Local Open Scope Z_scope.

(** ** JavaScript numeric primitives *)

Module JS.

Definition two32 : Z := 4294967296.
Definition two31 : Z := 2147483648.

(** [ToUint32] of an integral Number. *)
Definition toUint32 (x : Z) : Z := x mod two32.

(** [ToInt32] of an integral Number. *)
Definition toInt32 (x : Z) : Z :=
  let u := x mod two32 in
  if u <? two31 then u else u - two32.

(** [ToUint16], used by [String.fromCharCode]. *)
Definition toUint16 (x : Z) : Z := x mod 65536.

(** [a >>> n] *)
Definition ushr (a n : Z) : Z := Z.shiftr (toUint32 a) (n mod 32).

(** [a << n] *)
Definition shl (a n : Z) : Z := toInt32 (Z.shiftl (toInt32 a) (n mod 32)).

(** [a ^ b] *)
Definition bxor (a b : Z) : Z := toInt32 (Z.lxor (toInt32 a) (toInt32 b)).

(** [a | b] *)
Definition bor (a b : Z) : Z := toInt32 (Z.lor (toInt32 a) (toInt32 b)).

(** [Math.imul(a, b)] *)
Definition imul (a b : Z) : Z := toInt32 (toUint32 a * toUint32 b).

(** [a % b] on Numbers and on BigInts: the remainder has the sign of the
    dividend. *)
Definition rem (a b : Z) : Z := Z.rem a b.

(** [a || b] on Numbers holding integers: [0] is the only falsy one. *)
Definition num_or (a b : Z) : Z := if a =? 0 then b else a.

(** The double nearest to a non-negative integer [p], ties going to the
    even significand: below 2^53 it is [p]; from 2^(52+k) on, the
    doubles are the multiples of 2^k. *)
Definition roundDouble (p : Z) : Z :=
  let k := Z.log2 p - 52 in
  if k <=? 0 then p
  else
    let q := p / 2 ^ k in
    let r := p mod 2 ^ k in
    let half := 2 ^ (k - 1) in
    if (half <? r) || ((r =? half) && Z.odd q)
    then (q + 1) * 2 ^ k
    else q * 2 ^ k.

(** [a * b] on Numbers holding non-negative integers: the exact product,
    rounded to a double. *)
Definition mul (a b : Z) : Z := roundDouble (a * b).

End JS.

(** ** Strings *)

(** A JavaScript string: its UTF-16 code units. *)
Definition ustring : Type := list Z.

(** The code units of an ASCII literal. *)
Definition ustr (s : string) : ustring :=
  map (fun a => Z.of_nat (nat_of_ascii a)) (list_ascii_of_string s).

(** [s.length] *)
Definition ulength (s : ustring) : Z := Z.of_nat (List.length s).

Definition isLeadingSurrogate (u : Z) : bool := (55296 <=? u) && (u <=? 56319).
Definition isTrailingSurrogate (u : Z) : bool := (56320 <=? u) && (u <=? 57343).

(** The String iterator behind [for (const c of s)] and [[...s]]: one
    string per code point, a surrogate pair giving one string of two code
    units and every other code unit (a lone surrogate too) a string of
    one. *)
Fixpoint chars (s : ustring) : list ustring :=
  match s with
  | [] => []
  | u :: rest =>
      match rest with
      | l :: rest' =>
          if isLeadingSurrogate u && isTrailingSurrogate l
          then [u; l] :: chars rest'
          else [u] :: chars rest
      | [] => [[u]]
      end
  end.

(** [c.charCodeAt(0)]: the first code unit.  The strings the iterator
    yields are never empty; on the empty string JavaScript gives NaN,
    which no modelled path reaches, and the model gives [0]. *)
Definition charCodeAt0 (c : ustring) : Z := hd 0 c.

(** The values [c.charCodeAt(0)] takes as [c] runs through [s] with
    [for (const c of s)]. *)
Definition charCodes (s : ustring) : list Z := map charCodeAt0 (chars s).

(** [s || d] on strings: the empty string is the only falsy one. *)
Definition ustr_or (s d : ustring) : ustring :=
  match s with [] => d | _ => s end.

Definition str_or (s d : string) : string :=
  match s with EmptyString => d | _ => s end.

(** One lowercase hexadecimal digit. *)
Definition hexDigit (d : Z) : ascii :=
  if d <? 10 then ascii_of_nat (Z.to_nat (48 + d))
  else ascii_of_nat (Z.to_nat (87 + d)).

(** The hexadecimal digits of a non-negative integer, most significant
    first, without leading zeros; [fuel] bounds the number of digits. *)
Fixpoint hexDigits (fuel : nat) (n : Z) : string :=
  match fuel with
  | O => EmptyString
  | S fuel' =>
      if n <? 16 then String (hexDigit n) EmptyString
      else hexDigits fuel' (n / 16) ++ String (hexDigit (n mod 16)) EmptyString
  end.

(** [n.toString(16)] for an integral Number: a minus sign for a negative
    number, then the digits of its magnitude.  A number below 2^k has at
    most k digits, so the fuel is never exhausted (see
    [hexDigits_fuel]). *)
Definition toString16 (n : Z) : string :=
  let m := Z.abs n in
  let digits := hexDigits (S (Z.to_nat (Z.log2 m))) m in
  if n <? 0 then String "-" digits else digits.

Fixpoint zeros (k : nat) : string :=
  match k with
  | O => EmptyString
  | S k' => String "0" (zeros k')
  end.

(** [s.padStart(8, '0')] *)
Definition padStart8 (s : string) : string :=
  (zeros (8 - String.length s) ++ s)%string.

(** ** Exceptions *)

(** The only exception the modelled code raises: the [TypeError] of a
    property access on [undefined], or of a call of something that is not
    a function. *)
Inductive JsError : Type :=
| TypeError.

(** [e.name] *)
Definition error_name (e : JsError) : string :=
  match e with
  | TypeError => "TypeError"
  end.

Inductive result (A : Type) : Type :=
| Ok (a : A)
| Throw (e : JsError).

Arguments Ok {A} a.
Arguments Throw {A} e.

Definition bind {A B : Type} (r : result A) (k : A -> result B) : result B :=
  match r with
  | Ok a => k a
  | Throw e => Throw e
  end.

Notation "x <- r ;; k" := (bind r (fun x => k))
  (at level 61, r at next level, right associativity).
Notation "' p <- r ;; k" := (bind r (fun x => let 'p := x in k))
  (at level 61, p pattern, r at next level, right associativity).

(** ** Hash state and step results *)

Record HashState : Type := mkState {
  str : ustring;
  val : Z;
  salt : ustring;
  hexStr : string
}.

Definition set_val (st : HashState) (v : Z) : HashState :=
  mkState (str st) v (salt st) (hexStr st).

Definition set_hexStr (st : HashState) (h : string) : HashState :=
  mkState (str st) (val st) (salt st) h.

(** What a step's [run] returns.  The [desc] text, a decimal rendering of
    [val] inside a fixed caption, is display only and is left out. *)
Record StepResult : Type := mkResult {
  res_val : Z;
  display : option string
}.

Record Step : Type := mkStep {
  label : string;
  run : HashState -> HashState * StepResult
}.

(** The common ending of the numeric steps: [state.val = v; return { val:
    state.val }]. *)
Definition store (st : HashState) (v : Z) : HashState * StepResult :=
  (set_val st v, mkResult v None).

(** ** The step catalog *)

Module Steps.

Import JS.

Definition charcode_sum (st : HashState) : HashState * StepResult :=
  let v := fold_left (fun v c => v + c) (charCodes (str st)) 0 in
  store st (ushr (val st + v) 0).

Definition polynomial_roll (st : HashState) : HashState * StepResult :=
  let M := 1000000007 in
  let P := 31 in
  let '(h, _) :=
    fold_left (fun '(h, p) c => (rem (h + c * p) M, rem (p * P) M))
              (charCodes (str st)) (0, 1) in
  store st (ushr h 0).

Definition xor_fold (st : HashState) : HashState * StepResult :=
  let v := fold_left (fun v c => bxor v c) (charCodes (str st)) (val st) in
  store st (ushr v 0).

(** The [while (exp > 0n)] loop of [modular_exp], by recursion on the
    binary digits of [exp]: [exp % 2n === 1n] reads the lowest one and
    [exp >>= 1n] drops it.  [modexp_while_unfold] below shows that this
    is the loop. *)
Fixpoint modexp_loop (M : Z) (exp : positive) (result base : Z) : Z :=
  match exp with
  | xH => rem (result * base) M
  | xO exp' => modexp_loop M exp' result (rem (base * base) M)
  | xI exp' =>
      modexp_loop M exp' (rem (result * base) M) (rem (base * base) M)
  end.

Definition modexp_while (M exp result base : Z) : Z :=
  match exp with
  | Zpos e => modexp_loop M e result base
  | _ => result
  end.

Definition modular_exp (st : HashState) : HashState * StepResult :=
  let M := 2147483647 in
  let e := 65537 in
  let base := rem (num_or (val st) 1) M in
  let base := if base =? 0 then 1 else base in
  let result := modexp_while M e 1 base in
  store st (ushr result 0).

Definition fibonacci_mix (st : HashState) : HashState * StepResult :=
  let KNUTH := 2654435769 in
  let M := 2 ^ 32 in
  store st (ushr (rem (val st * KNUTH) M) 0).

Definition prime_multiply (st : HashState) : HashState * StepResult :=
  let PRIME := 1000000007 in
  let M := 2 ^ 32 in
  store st (ushr (rem (val st * PRIME) M) 0).

Definition bit_rotate (st : HashState) : HashState * StepResult :=
  let h := ushr (val st) 0 in
  store st (ushr (bor (shl h 13) (ushr h 19)) 0).

Definition ascii_square (st : HashState) : HashState * StepResult :=
  let M := 2 ^ 32 in
  let v := fold_left (fun v code => rem (v + code * code) M)
                     (charCodes (str st)) 0 in
  store st (ushr (val st + v) 0).

(** The five lines the [avalanche] step and the body of the [rounds]
    loop share. *)
Definition mix (h : Z) : Z :=
  let h := bxor h (ushr h 16) in
  let h := ushr (imul h 0x85ebca6b) 0 in
  let h := bxor h (ushr h 13) in
  let h := ushr (imul h 0xc2b2ae35) 0 in
  bxor h (ushr h 16).

Definition avalanche (st : HashState) : HashState * StepResult :=
  let h := ushr (val st) 0 in
  let h := mix h in
  store st (ushr h 0).

Definition salt_inject (st : HashState) : HashState * StepResult :=
  let salt := ustr_or (salt st) (ustr "x") in
  let '(sv, _) :=
    fold_left (fun '(sv, p) c => (ushr (sv + c * p) 0, ushr (imul p 31) 0))
              (charCodes salt) (0, 1) in
  store st (ushr (bxor (val st) sv) 0).

Definition rounds (st : HashState) : HashState * StepResult :=
  let h := Nat.iter 8 mix (val st) in
  store st (ushr h 0).

Definition hex_encode (st : HashState) : HashState * StepResult :=
  let hex := padStart8 (toString16 (val st)) in
  (set_hexStr st (str_or (hexStr st) "" ++ hex),
   mkResult (val st) (Some ("0x" ++ hex)%string)).

Definition modulo_trim (st : HashState) : HashState * StepResult :=
  store st (rem (val st) 65536).

End Steps.

(** The object literal [STEPS], in the order it is written. *)
Definition STEPS : list (string * Step) :=
  [ ("charcode_sum"%string, mkStep "∑ Char Code Sum" Steps.charcode_sum);
    ("polynomial_roll"%string, mkStep "P(x) Polynomial Rolling" Steps.polynomial_roll);
    ("xor_fold"%string, mkStep "⊕ XOR Fold" Steps.xor_fold);
    ("modular_exp"%string, mkStep "xⁿ Modular Exponent" Steps.modular_exp);
    ("fibonacci_mix"%string, mkStep "φ Fibonacci Mix" Steps.fibonacci_mix);
    ("prime_multiply"%string, mkStep "π Prime Multiply" Steps.prime_multiply);
    ("bit_rotate"%string, mkStep "↻ Bit Rotation" Steps.bit_rotate);
    ("ascii_square"%string, mkStep "x² ASCII Square Sum" Steps.ascii_square);
    ("avalanche"%string, mkStep "⚡ Avalanche Diffusion" Steps.avalanche);
    ("salt_inject"%string, mkStep "💊 Salt Injection" Steps.salt_inject);
    ("rounds"%string, mkStep "🔄 Iteration Rounds" Steps.rounds);
    ("hex_encode"%string, mkStep "🔡 Hex Encode" Steps.hex_encode);
    ("modulo_trim"%string, mkStep "% Modulo Trim" Steps.modulo_trim) ].

(** [STEPS[key]] restricted to the catalog's own keys.  For any other key
    the access yields [undefined] or a member inherited from
    [Object.prototype], neither of which has a [run] method. *)
Fixpoint lookup (key : string) (tbl : list (string * Step)) : option Step :=
  match tbl with
  | [] => None
  | (k, s) :: tbl' => if String.eqb key k then Some s else lookup key tbl'
  end.

(** ** runHash *)

Record TraceEntry : Type := mkTrace {
  trace_step : string;
  trace_val : Z;
  trace_display : option string
}.

Record RunResult : Type := mkRun {
  finalHash : string;
  trace : list TraceEntry;
  stepOutputs : list StepResult;
  stateVal : Z
}.

(** The callback of [steps.map], run over the pipeline in order on the one
    shared [state]; [step.run] on a key outside the catalog raises a
    [TypeError] and ends the run there. *)
Fixpoint run_steps (steps : list string) (st : HashState)
  : result (HashState * list StepResult * list TraceEntry) :=
  match steps with
  | [] => Ok (st, [], [])
  | key :: steps' =>
      match lookup key STEPS with
      | None => Throw TypeError
      | Some step =>
          let '(st1, r) := run step st in
          '(st2, outs, tr) <- run_steps steps' st1 ;;
          Ok (st2, r :: outs, mkTrace (label step) (res_val r) (display r) :: tr)
      end
  end.

(** The seed: [(password.length * 2166136261) >>> 0]. *)
Definition seed (password : ustring) : Z :=
  JS.ushr (JS.mul (ulength password) 2166136261) 0.

(** The digest [runHash] makes up when no step wrote to [hexStr]. *)
Definition two_word_hex (h1 : Z) : string :=
  let h2 := JS.ushr (JS.imul (JS.bxor h1 (JS.ushr h1 16)) 0x85ebca6b) 0 in
  let h2 := JS.ushr (JS.imul (JS.bxor h2 (JS.ushr h2 13)) 0xc2b2ae35) 0 in
  let h2 := JS.bxor h2 (JS.ushr h2 16) in
  (padStart8 (toString16 h1) ++ padStart8 (toString16 h2))%string.

Definition runHash (password salt : ustring) (steps : list string)
  : result RunResult :=
  let state := mkState (password ++ salt) 0 salt "" in
  let state := set_val state (seed password) in
  '(state, stepOutputs, trace) <- run_steps steps state ;;
  let finalHash :=
    match hexStr state with
    | EmptyString => two_word_hex (val state)
    | _ => hexStr state
    end in
  Ok (mkRun finalHash trace stepOutputs (val state)).

(** ** The avalanche comparison *)

(** [arr[idx] = x] on an array, for an index inside it. *)
Fixpoint array_set {A : Type} (arr : list A) (idx : nat) (x : A) : list A :=
  match arr, idx with
  | [], _ => []
  | _ :: arr', O => x :: arr'
  | a :: arr', S idx' => a :: array_set arr' idx' x
  end.

(** [arr[idx]]: [undefined] ([None]) for a negative index and for one past
    the end. *)
Definition array_get {A : Type} (arr : list A) (idx : Z) : option A :=
  if idx <? 0 then None else nth_error arr (Z.to_nat idx).

(** [flipChar(str, idx)].  [arr[idx].charCodeAt(0)] raises a [TypeError]
    when [arr[idx]] is [undefined]; [String.fromCharCode] keeps the low 16
    bits of its argument. *)
Definition flipChar (str : ustring) (idx : Z) : result ustring :=
  let arr := chars str in
  match array_get arr idx with
  | None => Throw TypeError
  | Some c =>
      let arr := array_set arr (Z.to_nat idx) [JS.toUint16 (charCodeAt0 c + 1)] in
      Ok (List.concat arr)
  end.

(** The loop of [countDifferentChars]: the positions below the shorter
    length at which the two strings differ. *)
Fixpoint differing (a b : string) : Z :=
  match a, b with
  | String x a', String y b' =>
      (if Ascii.eqb x y then 0 else 1) + differing a' b'
  | _, _ => 0
  end.

Definition slength (s : string) : Z := Z.of_nat (String.length s).

Definition countDifferentChars (a b : string) : Z :=
  differing a b + Z.abs (slength a - slength b).

(** The [tests] array of [runAvalanche]; its elements are evaluated in
    the order they are written. *)
Definition avalanche_tests (password : ustring)
  : result (list (string * ustring)) :=
  pw1 <- flipChar password 0 ;;
  pw2 <- flipChar password (ulength password / 2) ;;
  pw3 <- flipChar password (ulength password - 1) ;;
  Ok [ ("Original"%string, password);
       ("Flip 1st char"%string, pw1);
       ("Flip mid char"%string, pw2);
       ("Flip last char"%string, pw3) ].

(** One row of the avalanche grid.  The percentage shown,
    [Math.round((diff / base.length) * 100)], is a rounding of a
    floating-point quotient of [av_diff] and [av_base_length] and is not
    computed here. *)
Record AvRow : Type := mkRow {
  av_label : string;
  av_hash : string;
  av_diff : Z;
  av_base_length : Z
}.

Fixpoint avalanche_rows (base : string) (salt : ustring) (steps : list string)
    (tests : list (string * ustring)) : result (list AvRow) :=
  match tests with
  | [] => Ok []
  | (label, pw) :: tests' =>
      r <- runHash pw salt steps ;;
      let h := finalHash r in
      let diff := countDifferentChars base h in
      rows <- avalanche_rows base salt steps tests' ;;
      Ok (mkRow label h diff (slength base) :: rows)
  end.

Definition runAvalanche (password salt : ustring) (steps : list string)
  : result (list AvRow) :=
  r <- runHash password salt steps ;;
  let base := finalHash r in
  tests <- avalanche_tests password ;;
  avalanche_rows base salt steps tests.

(** ** The click handler of the run button *)

(** What a click on the run button does, as far as the evaluator is
    concerned: either it alerts and returns without running anything, or
    it runs [runHash] and then [runAvalanche] on the inputs, an empty
    password field standing for ['password']. *)
Inductive ClickOutcome : Type :=
| Alerted (msg : string)
| Ran (r : result (RunResult * list AvRow)).

Definition btn_run_click (pipeline : list string)
    (password_input salt_input : ustring) : ClickOutcome :=
  if Z.of_nat (List.length pipeline) =? 0 then
    Alerted "Add at least one step to your pipeline first!"
  else
    let password := ustr_or password_input (ustr "password") in
    let salt := ustr_or salt_input (ustr "") in
    Ran (r <- runHash password salt pipeline ;;
         rows <- runAvalanche password salt pipeline ;;
         Ok (r, rows)).

(** ** Presets *)

(** The object literal [PRESETS]. *)
Module PRESETS.
Definition simple : list string :=
  ["charcode_sum"; "xor_fold"; "hex_encode"]%string.
Definition djb2 : list string :=
  ["charcode_sum"; "polynomial_roll"; "prime_multiply"; "hex_encode"]%string.
Definition secure : list string :=
  ["salt_inject"; "polynomial_roll"; "avalanche"; "modular_exp";
   "fibonacci_mix"; "rounds"; "avalanche"; "hex_encode"]%string.
End PRESETS.

(** * Vocabulary of the properties *)

(** An unsigned 32-bit integer. *)
Definition uint32 (x : Z) : Prop := 0 <= x < 2 ^ 32.

(** Rotation to the left by 13 positions of a 32-bit word. *)
Definition rotl13 (h : Z) : Z := Z.lor ((h * 2 ^ 13) mod 2 ^ 32) (h / 2 ^ 19).

(** The [k] low hexadecimal digits of [n], most significant first. *)
Fixpoint fixedHex (k : nat) (n : Z) : string :=
  match k with
  | O => EmptyString
  | S k' => (fixedHex k' (n / 16) ++ String (hexDigit (n mod 16)) EmptyString)%string
  end.

(** The eight hexadecimal digits of an unsigned 32-bit integer. *)
Definition hex8 (v : Z) : string := fixedHex 8 v.

(** Hexadecimal digit characters. *)
Definition isHexChar (c : ascii) : bool :=
  let n := nat_of_ascii c in
  ((48 <=? n) && (n <=? 57) || (97 <=? n) && (n <=? 102))%nat.

(** A string of hexadecimal digits. *)
Fixpoint allHex (s : string) : bool :=
  match s with
  | EmptyString => true
  | String c s' => isHexChar c && allHex s'
  end.

(** The claim's reading of the step: the base is the accumulator, or 1
    when the accumulator is 0. *)
Definition claimed_modular_exp (acc : Z) : Z :=
  let base := if acc =? 0 then 1 else acc in
  JS.toUint32 (base ^ 65537 mod (2 ^ 31 - 1)).

(** What the step computes: the base is 1 whenever the accumulator is a
    multiple of 2^31 - 1. *)
Definition modular_exp_base (acc : Z) : Z :=
  if acc mod (2 ^ 31 - 1) =? 0 then 1 else acc.

(** The sum of [c_i * 31 ^ (k + i)] over the list. *)
Fixpoint poly_sum (cs : list Z) (k : nat) : Z :=
  match cs with
  | [] => 0
  | c :: cs' => c * 31 ^ Z.of_nat k + poly_sum cs' (S k)
  end.

(** The polynomial hash of the claim: the sum of [c_i * 31 ^ i], kept to
    32 bits. *)
Definition poly_hash32 (cs : list Z) : Z := poly_sum cs 0 mod 2 ^ 32.

(** The loop of [salt_inject]. *)
Definition salt_loop (cs : list Z) (init : Z * Z) : Z * Z :=
  fold_left (fun '(sv, p) c => (JS.ushr (sv + c * p) 0, JS.ushr (JS.imul p 31) 0))
            cs init.

(** The Unicode code points of a string, in the order written: a
    surrogate pair stands for one code point above the Basic Multilingual
    Plane, every other code unit for itself. *)
Fixpoint codePoints (s : ustring) : list Z :=
  match s with
  | [] => []
  | u :: rest =>
      match rest with
      | l :: rest' =>
          if isLeadingSurrogate u && isTrailingSurrogate l
          then ((u - 55296) * 1024 + (l - 56320) + 65536) :: codePoints rest'
          else u :: codePoints rest
      | [] => [u]
      end
  end.

(** Whether a string holds a surrogate pair: a leading surrogate with a
    trailing surrogate right after it. *)
Fixpoint has_surrogate_pair (s : ustring) : bool :=
  match s with
  | [] => false
  | u :: rest =>
      match rest with
      | l :: _ =>
          (isLeadingSurrogate u && isTrailingSurrogate l) || has_surrogate_pair rest
      | [] => false
      end
  end.

(** The claim's reading of the step: the polynomial hash of the salt
    alone, over its code points, the empty salt included. *)
Definition claimed_salt_inject (acc : Z) (salt : ustring) : Z :=
  Z.lxor acc (poly_hash32 (codePoints salt)).

(** The three string-derived steps as the claim reads them: the steps of
    the catalog with the code points of the input text where the source
    has [c.charCodeAt(0)]. *)
Module Claimed.

Import JS.

Definition charcode_sum (st : HashState) : HashState * StepResult :=
  let v := fold_left (fun v c => v + c) (codePoints (str st)) 0 in
  store st (ushr (val st + v) 0).

Definition xor_fold (st : HashState) : HashState * StepResult :=
  let v := fold_left (fun v c => bxor v c) (codePoints (str st)) (val st) in
  store st (ushr v 0).

Definition ascii_square (st : HashState) : HashState * StepResult :=
  let M := 2 ^ 32 in
  let v := fold_left (fun v code => rem (v + code * code) M)
                     (codePoints (str st)) 0 in
  store st (ushr (val st + v) 0).

End Claimed.

(** The finalize formula on an unsigned 32-bit word: h ^= h >> 16;
    h = h * 0x85ebca6b mod 2^32; h ^= h >> 13; h = h * 0xc2b2ae35 mod
    2^32; h ^= h >> 16. *)
Definition fmix32 (h : Z) : Z :=
  let h := Z.lxor h (Z.shiftr h 16) in
  let h := (h * 0x85ebca6b) mod 2 ^ 32 in
  let h := Z.lxor h (Z.shiftr h 13) in
  let h := (h * 0xc2b2ae35) mod 2 ^ 32 in
  Z.lxor h (Z.shiftr h 16).

(** The digest the claim describes for a pipeline without [hex_encode]. *)
Definition claimed_two_word_hex (h1 : Z) : string :=
  (hex8 h1 ++ hex8 (fmix32 h1))%string.

(** A pipeline is valid when each of its ids is a key of the catalog. *)
Definition valid_pipeline (steps : list string) : Prop :=
  Forall (fun key => lookup key STEPS <> None) steps.

(** The number of [hex_encode] steps of a pipeline. *)
Definition hex_steps (steps : list string) : nat :=
  count_occ string_dec steps "hex_encode"%string.

(** A well-formed string: every code unit is a 16-bit value. *)
Definition wf_ustring (s : ustring) : Prop := Forall (fun u => 0 <= u < 65536) s.

(** The loop of [polynomial_roll]. *)
Definition roll_loop (cs : list Z) (init : Z * Z) : Z * Z :=
  fold_left (fun '(h, p) c =>
               (JS.rem (h + c * p) 1000000007, JS.rem (p * 31) 1000000007))
            cs init.

(** The sum and the XOR of a list of integers. *)
Definition zsum (cs : list Z) : Z := fold_right Z.add 0 cs.
Definition zxor (cs : list Z) : Z := fold_right Z.lxor 0 cs.

(** Two states that differ in the order of the characters of the input
    text only. *)
Definition anagram_states (a b : HashState) : Prop :=
  val a = val b /\ salt a = salt b /\ hexStr a = hexStr b /\
  Permutation (charCodes (str a)) (charCodes (str b)).

(** A step takes them to two such states, returning the same result. *)
Definition keeps_anagrams (f : HashState -> HashState * StepResult) : Prop :=
  forall a b, anagram_states a b ->
    snd (f a) = snd (f b) /\ anagram_states (fst (f a)) (fst (f b)).

(** Two states that agree on everything but the input text. *)
Definition same_but_text (a b : HashState) : Prop :=
  val a = val b /\ salt a = salt b /\ hexStr a = hexStr b.

Definition ignores_text (f : HashState -> HashState * StepResult) : Prop :=
  forall a b, same_but_text a b ->
    snd (f a) = snd (f b) /\ same_but_text (fst (f a)) (fst (f b)).

(** The steps that read [state.str]. *)
Definition text_steps : list string :=
  ["charcode_sum"; "polynomial_roll"; "xor_fold"; "ascii_square"]%string.

(** The word a step output stands for in the digest: the eight digits of
    its value when the step formatted one, nothing otherwise. *)
Definition hex_word (o : StepResult) : string :=
  match display o with
  | Some _ => hex8 (res_val o)
  | None => EmptyString
  end.

Fixpoint hex_words (outs : list StepResult) : string :=
  match outs with
  | [] => EmptyString
  | o :: outs' => (hex_word o ++ hex_words outs')%string
  end.

(** * Properties *)

(** ** The 32-bit coercions *)

Module JSFacts.

Import JS.

Lemma two32_pow : two32 = 2 ^ 32.
Proof. reflexivity. Qed.

Lemma toUint32_range (x : Z) : 0 <= toUint32 x < two32.
Proof. unfold toUint32. apply Z.mod_pos_bound. reflexivity. Qed.

Lemma toUint32_small (x : Z) : 0 <= x < two32 -> toUint32 x = x.
Proof. intros H. unfold toUint32. now apply Z.mod_small. Qed.

Lemma toUint32_idem (x : Z) : toUint32 (toUint32 x) = toUint32 x.
Proof. apply toUint32_small, toUint32_range. Qed.

Lemma toUint32_toInt32 (x : Z) : toUint32 (toInt32 x) = toUint32 x.
Proof.
  unfold toInt32, toUint32.
  destruct (x mod two32 <? two31).
  - apply Z.mod_mod. discriminate.
  - replace (x mod two32 - two32) with (x mod two32 + (-1) * two32) by ring.
    rewrite Z.mod_add by discriminate. apply Z.mod_mod. discriminate.
Qed.

Lemma toInt32_small (x : Z) : 0 <= x < two31 -> toInt32 x = x.
Proof.
  intros H. unfold toInt32.
  rewrite Z.mod_small by (unfold two31, two32 in *; lia).
  destruct (Z.ltb_spec x two31); [reflexivity | lia].
Qed.

Lemma toInt32_high (x : Z) : two31 <= x < two32 -> toInt32 x = x - two32.
Proof.
  intros H. unfold toInt32.
  rewrite Z.mod_small by (unfold two31, two32 in *; lia).
  destruct (Z.ltb_spec x two31); [lia | reflexivity].
Qed.

Lemma ushr_0 (a : Z) : ushr a 0 = toUint32 a.
Proof. unfold ushr. apply Z.shiftr_0_r. Qed.

Lemma ushr_range (a n : Z) : 0 <= ushr a n < two32.
Proof.
  unfold ushr.
  assert (Hn : 0 <= n mod 32) by (apply Z.mod_pos_bound; reflexivity).
  pose proof (toUint32_range a) as Ha.
  rewrite Z.shiftr_div_pow2 by exact Hn.
  assert (Hp : 0 < 2 ^ (n mod 32)) by (apply Z.pow_pos_nonneg; lia).
  split.
  - apply Z.div_pos; lia.
  - apply Z.le_lt_trans with (toUint32 a); [| lia].
    apply Z.div_le_upper_bound; [exact Hp |]. nia.
Qed.

(** Reduction modulo 2^32 commutes with the bitwise operators. *)
Lemma mod32_lxor (a b : Z) :
  (Z.lxor a b) mod two32 = Z.lxor (a mod two32) (b mod two32).
Proof.
  rewrite two32_pow, <- !Z.land_ones by lia.
  apply Z.bits_inj'. intros i Hi.
  rewrite !Z.land_spec, !Z.lxor_spec, !Z.land_spec.
  destruct (Z.testbit (Z.ones 32) i), (Z.testbit a i), (Z.testbit b i);
    reflexivity.
Qed.

Lemma mod32_lor (a b : Z) :
  (Z.lor a b) mod two32 = Z.lor (a mod two32) (b mod two32).
Proof.
  rewrite two32_pow, <- !Z.land_ones by lia.
  apply Z.bits_inj'. intros i Hi.
  rewrite !Z.land_spec, !Z.lor_spec, !Z.land_spec.
  destruct (Z.testbit (Z.ones 32) i), (Z.testbit a i), (Z.testbit b i);
    reflexivity.
Qed.

Lemma toUint32_bxor (a b : Z) :
  toUint32 (bxor a b) = Z.lxor (toUint32 a) (toUint32 b).
Proof.
  unfold bxor. rewrite toUint32_toInt32.
  unfold toUint32 at 1. rewrite mod32_lxor.
  fold (toUint32 (toInt32 a)). fold (toUint32 (toInt32 b)).
  now rewrite !toUint32_toInt32.
Qed.

Lemma toUint32_bor (a b : Z) :
  toUint32 (bor a b) = Z.lor (toUint32 a) (toUint32 b).
Proof.
  unfold bor. rewrite toUint32_toInt32.
  unfold toUint32 at 1. rewrite mod32_lor.
  fold (toUint32 (toInt32 a)). fold (toUint32 (toInt32 b)).
  now rewrite !toUint32_toInt32.
Qed.

Lemma toUint32_imul (a b : Z) :
  toUint32 (imul a b) = (toUint32 a * toUint32 b) mod two32.
Proof. unfold imul. now rewrite toUint32_toInt32. Qed.

Lemma toUint32_shl (a n : Z) :
  toUint32 (shl a n) = (toUint32 a * 2 ^ (n mod 32)) mod two32.
Proof.
  unfold shl. rewrite toUint32_toInt32.
  assert (Hn : 0 <= n mod 32) by (apply Z.mod_pos_bound; reflexivity).
  rewrite Z.shiftl_mul_pow2 by exact Hn.
  unfold toUint32 at 1.
  rewrite Z.mul_mod by discriminate.
  fold (toUint32 (toInt32 a)). rewrite toUint32_toInt32.
  unfold toUint32.
  rewrite <- Z.mul_mod by discriminate.
  rewrite Z.mul_mod_idemp_l by discriminate. reflexivity.
Qed.

Lemma lxor_range (a b : Z) :
  0 <= a < two32 -> 0 <= b < two32 -> 0 <= Z.lxor a b < two32.
Proof.
  intros Ha Hb.
  rewrite <- (Z.mod_small a two32), <- (Z.mod_small b two32) by assumption.
  rewrite <- mod32_lxor. apply Z.mod_pos_bound. reflexivity.
Qed.

End JSFacts.

(** ** The accumulator stays an unsigned 32-bit integer *)

Lemma uint32_ushr (a n : Z) : uint32 (JS.ushr a n).
Proof. exact (JSFacts.ushr_range a n). Qed.

Lemma store_val (st : HashState) (v : Z) : val (fst (store st v)) = v.
Proof. reflexivity. Qed.

Lemma store_hexStr (st : HashState) (v : Z) :
  hexStr (fst (store st v)) = hexStr st.
Proof. reflexivity. Qed.

Lemma store_res (st : HashState) (v : Z) : res_val (snd (store st v)) = v.
Proof. reflexivity. Qed.

Create HintDb steps.
#[local] Hint Resolve uint32_ushr : steps.

Lemma polynomial_roll_uint32 (st : HashState) :
  uint32 (val (fst (Steps.polynomial_roll st))).
Proof.
  unfold Steps.polynomial_roll.
  destruct (fold_left _ _ _) as [h p]. rewrite store_val. auto with steps.
Qed.

Lemma salt_inject_uint32 (st : HashState) :
  uint32 (val (fst (Steps.salt_inject st))).
Proof.
  unfold Steps.salt_inject.
  destruct (fold_left _ _ _) as [sv p]. rewrite store_val. auto with steps.
Qed.

Lemma modulo_trim_uint32 (st : HashState) :
  uint32 (val st) -> uint32 (val (fst (Steps.modulo_trim st))).
Proof.
  unfold uint32, Steps.modulo_trim, JS.rem. rewrite store_val. intros H.
  rewrite Z.rem_mod_nonneg by lia.
  pose proof (Z.mod_pos_bound (val st) 65536 eq_refl). lia.
Qed.

Lemma hex_encode_val (st : HashState) :
  val (fst (Steps.hex_encode st)) = val st.
Proof. reflexivity. Qed.

(** A key of the catalog is bound to one of the entries written in
    [STEPS]. *)
Lemma lookup_In (key : string) (tbl : list (string * Step)) (step : Step) :
  lookup key tbl = Some step -> In step (map snd tbl).
Proof.
  induction tbl as [| [k s] tbl IH]; simpl; [discriminate |].
  destruct (String.eqb key k).
  - intros H. injection H as <-. now left.
  - intros H. right. now apply IH.
Qed.

(** The proof that a step written as [store st (ushr _ 0)] keeps the
    accumulator in range. *)
Ltac stored_ushr f :=
  intros; unfold f; cbv zeta;
  try (destruct (fold_left _ _ (_, _))); rewrite store_val; apply uint32_ushr.

Lemma catalog_uint32 :
  Forall (fun step => forall st, uint32 (val st) -> uint32 (val (fst (run step st))))
         (map snd STEPS).
Proof.
  unfold STEPS. cbn [map snd].
  repeat apply Forall_cons; try apply Forall_nil; intros st Hst; cbn [run].
  - stored_ushr Steps.charcode_sum.
  - stored_ushr Steps.polynomial_roll.
  - stored_ushr Steps.xor_fold.
  - stored_ushr Steps.modular_exp.
  - stored_ushr Steps.fibonacci_mix.
  - stored_ushr Steps.prime_multiply.
  - stored_ushr Steps.bit_rotate.
  - stored_ushr Steps.ascii_square.
  - stored_ushr Steps.avalanche.
  - stored_ushr Steps.salt_inject.
  - stored_ushr Steps.rounds.
  - rewrite hex_encode_val. exact Hst.
  - apply modulo_trim_uint32. exact Hst.
Qed.

Lemma step_uint32 (key : string) (step : Step) (st : HashState) :
  lookup key STEPS = Some step ->
  uint32 (val st) -> uint32 (val (fst (run step st))).
Proof.
  intros Hk. apply lookup_In in Hk.
  pose proof catalog_uint32 as Hall. rewrite Forall_forall in Hall.
  now apply Hall.
Qed.

Lemma seed_uint32 (password : ustring) : uint32 (seed password).
Proof. apply uint32_ushr. Qed.

(** Below 2^53 the product of two Numbers is exact ... *)
Lemma roundDouble_exact (p : Z) : 0 <= p < 2 ^ 53 -> JS.roundDouble p = p.
Proof.
  intros Hp. unfold JS.roundDouble. cbv zeta.
  destruct (Z.leb_spec (Z.log2 p - 52) 0) as [_ | Hk]; [reflexivity |].
  destruct (Z.eq_dec p 0) as [-> | Hne]; [discriminate Hk |].
  assert (Z.log2 p < 53) by (apply Z.log2_lt_pow2; lia). lia.
Qed.

(** ... so the seed is the product modulo 2^32 for a password of at most
    4158186 code units; from 4158187 on the product is rounded first. *)
Lemma seed_exact (password : ustring) :
  ulength password <= 4158186 ->
  seed password = (ulength password * 2166136261) mod 2 ^ 32.
Proof.
  intros Hlen. unfold seed, JS.mul. rewrite JSFacts.ushr_0.
  rewrite roundDouble_exact; [reflexivity |].
  unfold ulength in *. lia.
Qed.

Lemma seed_product_rounding :
  JS.ushr (JS.mul 4158187 2166136261) 0 = 385977816 /\
  (4158187 * 2166136261) mod 2 ^ 32 = 385977815.
Proof. split; reflexivity. Qed.

(** The states a run of a pipeline goes through keep the invariant. *)
Lemma run_steps_uint32 (steps : list string) :
  forall st st' outs tr,
    uint32 (val st) ->
    run_steps steps st = Ok (st', outs, tr) ->
    uint32 (val st').
Proof.
  induction steps as [| key steps IH]; intros st st' outs tr Hst Hrun;
    cbn [run_steps] in Hrun.
  - injection Hrun as <- _ _. exact Hst.
  - destruct (lookup key STEPS) as [step |] eqn:Hk; [| discriminate].
    destruct (run step st) as [st1 r] eqn:Hr.
    destruct (run_steps steps st1) as [[[st2 outs2] tr2] | e] eqn:Hrest;
      simpl in Hrun; [| discriminate].
    injection Hrun as <- _ _.
    apply (IH st1 st2 outs2 tr2); [| exact Hrest].
    replace st1 with (fst (run step st)) by now rewrite Hr.
    now apply (step_uint32 key).
Qed.

(** The value a step returns is the accumulator it leaves. *)
Ltac returns_val f :=
  intros; unfold f; cbv zeta;
  try (destruct (fold_left _ _ (_, _)));
  rewrite store_res, store_val; reflexivity.

Lemma catalog_res_val :
  Forall (fun step => forall st, res_val (snd (run step st)) = val (fst (run step st)))
         (map snd STEPS).
Proof.
  unfold STEPS. cbn [map snd].
  repeat apply Forall_cons; try apply Forall_nil; intros st; cbn [run].
  - returns_val Steps.charcode_sum.
  - returns_val Steps.polynomial_roll.
  - returns_val Steps.xor_fold.
  - returns_val Steps.modular_exp.
  - returns_val Steps.fibonacci_mix.
  - returns_val Steps.prime_multiply.
  - returns_val Steps.bit_rotate.
  - returns_val Steps.ascii_square.
  - returns_val Steps.avalanche.
  - returns_val Steps.salt_inject.
  - returns_val Steps.rounds.
  - unfold Steps.hex_encode. cbn [fst snd res_val val set_hexStr]. reflexivity.
  - returns_val Steps.modulo_trim.
Qed.

(** C6.  The seed is an unsigned 32-bit integer, and every step of the
    catalog, run on a state whose accumulator is an integer in
    [0, 2^32), leaves the accumulator in [0, 2^32); the value the step
    returns is that accumulator. *)
Theorem accumulator_invariant :
  (forall password : ustring, 0 <= seed password < 2 ^ 32) /\
  (forall (key : string) (step : Step) (st : HashState),
      lookup key STEPS = Some step ->
      0 <= val st < 2 ^ 32 ->
      0 <= val (fst (run step st)) < 2 ^ 32 /\
      res_val (snd (run step st)) = val (fst (run step st))).
Proof.
  split.
  - exact seed_uint32.
  - intros key step st Hk Hst. split.
    + exact (step_uint32 key step st Hk Hst).
    + apply lookup_In in Hk.
      pose proof catalog_res_val as Hall. rewrite Forall_forall in Hall.
      now apply Hall.
Qed.

Lemma accumulator_invariant_witness :
  let st := mkState (ustr "ab") 4294967295 (ustr "s") "" in
  0 <= val (fst (Steps.modulo_trim st)) < 2 ^ 32 /\
  res_val (snd (Steps.modulo_trim st)) = val (fst (Steps.modulo_trim st)).
Proof.
  intros st.
  apply (proj2 accumulator_invariant "modulo_trim"%string
           (mkStep "% Modulo Trim" Steps.modulo_trim) st).
  - reflexivity.
  - simpl. lia.
Defined.

(** ** Bit rotation *)

Lemma uint32_testbit_high (h i : Z) : uint32 h -> 32 <= i -> Z.testbit h i = false.
Proof.
  intros Hh Hi. rewrite <- (Z.mod_small h (2 ^ 32)) by exact Hh.
  apply Z.mod_pow2_bits_high. lia.
Qed.

Lemma uint32_bits (h : Z) :
  0 <= h -> (forall i, 32 <= i -> Z.testbit h i = false) -> uint32 h.
Proof.
  intros H0 Hhigh. split; [exact H0 |].
  destruct (Z.eq_dec h 0) as [-> | Hne]; [reflexivity |].
  assert (Hpos : 0 < h) by lia.
  destruct (Z.lt_ge_cases (Z.log2 h) 32) as [Hlt | Hge].
  - apply Z.log2_lt_pow2; assumption.
  - pose proof (Z.bit_log2 h Hpos) as Hbit.
    rewrite Hhigh in Hbit by exact Hge. discriminate.
Qed.

Lemma uint32_eq_bits (a b : Z) :
  uint32 a -> uint32 b ->
  (forall i, 0 <= i < 32 -> Z.testbit a i = Z.testbit b i) -> a = b.
Proof.
  intros Ha Hb Hbits. apply Z.bits_inj'. intros i Hi.
  destruct (Z.lt_ge_cases i 32) as [Hlt | Hge].
  - apply Hbits. lia.
  - now rewrite !uint32_testbit_high.
Qed.

Lemma rotl13_testbit (h i : Z) :
  uint32 h -> 0 <= i < 32 ->
  Z.testbit (rotl13 h) i = Z.testbit h ((i - 13) mod 32).
Proof.
  intros Hh Hi. unfold rotl13.
  rewrite Z.lor_spec, Z.mod_pow2_bits_low by lia.
  rewrite Z.mul_pow2_bits by lia.
  rewrite Z.div_pow2_bits by lia.
  destruct (Z.lt_ge_cases i 13) as [Hlt | Hge].
  - rewrite Z.testbit_neg_r by lia.
    replace ((i - 13) mod 32) with (i + 19)
      by (apply (Z.mod_unique (i - 13) 32 (-1) (i + 19)); lia).
    reflexivity.
  - rewrite (uint32_testbit_high h (i + 19)) by (assumption || lia).
    replace ((i - 13) mod 32) with (i - 13) by (symmetry; apply Z.mod_small; lia).
    apply orb_false_r.
Qed.

Lemma rotl13_uint32 (h : Z) : uint32 h -> uint32 (rotl13 h).
Proof.
  intros Hh. unfold rotl13.
  assert (Ha : uint32 ((h * 2 ^ 13) mod 2 ^ 32))
    by (apply Z.mod_pos_bound; reflexivity).
  assert (Hb : uint32 (h / 2 ^ 19)).
  { unfold uint32 in *. split.
    - apply Z.div_pos; lia.
    - apply Z.div_lt_upper_bound; lia. }
  apply uint32_bits.
  - apply Z.lor_nonneg. unfold uint32 in *. lia.
  - intros i Hi. rewrite Z.lor_spec, !uint32_testbit_high by assumption.
    reflexivity.
Qed.

Lemma iter_rotl13_uint32 (n : nat) (h : Z) :
  uint32 h -> uint32 (Nat.iter n rotl13 h).
Proof.
  intros Hh. induction n as [| n IH]; simpl; [exact Hh |].
  now apply rotl13_uint32.
Qed.

(** [n] rotations by 13 move bit [i - 13 n] (modulo 32) to position [i]. *)
Lemma iter_rotl13_testbit (n : nat) (h i : Z) :
  uint32 h -> 0 <= i < 32 ->
  Z.testbit (Nat.iter n rotl13 h) i = Z.testbit h ((i - 13 * Z.of_nat n) mod 32).
Proof.
  intros Hh. revert i. induction n as [| n IH]; intros i Hi.
  - simpl. rewrite Z.sub_0_r, Z.mod_small by lia. reflexivity.
  - cbn [Nat.iter nat_rect].
    rewrite rotl13_testbit by (apply iter_rotl13_uint32 || idtac; assumption).
    rewrite IH by (apply Z.mod_pos_bound; reflexivity).
    f_equal.
    rewrite Zminus_mod_idemp_l. f_equal. lia.
Qed.

Lemma bit_rotate_state (st : HashState) :
  uint32 (val st) -> fst (Steps.bit_rotate st) = set_val st (rotl13 (val st)).
Proof.
  intros Hst. unfold Steps.bit_rotate, store, fst. f_equal.
  rewrite !JSFacts.ushr_0, JSFacts.toUint32_bor, JSFacts.toUint32_shl.
  rewrite (JSFacts.toUint32_small (JS.ushr _ _)) by apply JSFacts.ushr_range.
  unfold JS.ushr. rewrite !JSFacts.toUint32_idem.
  rewrite (JSFacts.toUint32_small (val st)) by exact Hst.
  unfold rotl13. change (13 mod 32) with 13. change (19 mod 32) with 19.
  rewrite Z.shiftr_div_pow2 by discriminate.
  reflexivity.
Qed.

Lemma set_val_id (st : HashState) : set_val st (val st) = st.
Proof. now destruct st. Qed.

Lemma set_val_set_val (st : HashState) (v w : Z) :
  set_val (set_val st v) w = set_val st w.
Proof. reflexivity. Qed.

(** A pipeline of [n] [bit_rotate] steps runs to the end and rotates the
    accumulator [n] times, leaving the rest of the state alone. *)
Lemma run_steps_bit_rotate (n : nat) :
  forall st, uint32 (val st) ->
    exists outs tr,
      run_steps (repeat "bit_rotate"%string n) st
      = Ok (set_val st (Nat.iter n rotl13 (val st)), outs, tr).
Proof.
  induction n as [| n IH]; intros st Hst.
  - exists [], []. simpl. now rewrite set_val_id.
  - cbn [repeat run_steps].
    change (lookup "bit_rotate" STEPS)
      with (Some (mkStep "↻ Bit Rotation" Steps.bit_rotate)).
    cbn [run].
    pose proof (bit_rotate_state st Hst) as Hfst.
    destruct (Steps.bit_rotate st) as [st1 r]. cbn [fst] in Hfst. subst st1.
    destruct (IH (set_val st (rotl13 (val st)))) as (outs & tr & Hrun).
    { now apply rotl13_uint32. }
    rewrite Hrun. cbn [bind val set_val str salt hexStr].
    rewrite Nat.iter_succ_r.
    eexists. eexists. reflexivity.
Qed.

(** C9.  On every accumulator in [0, 2^32), a pipeline of 32 [bit_rotate]
    steps (416 positions, a multiple of 32) runs to the end and gives the
    state back as it was, accumulator included; a pipeline of 4 (52
    positions, 20 modulo 32) does not: it turns 1 into 2^20. *)
Theorem bit_rotate_round_trip :
  (forall st : HashState,
      0 <= val st < 2 ^ 32 ->
      exists outs tr,
        run_steps (repeat "bit_rotate"%string 32) st = Ok (st, outs, tr)) /\
  (exists (st st' : HashState) outs tr,
      0 <= val st < 2 ^ 32 /\
      run_steps (repeat "bit_rotate"%string 4) st = Ok (st', outs, tr) /\
      val st' <> val st).
Proof.
  split.
  - intros st Hst.
    destruct (run_steps_bit_rotate 32 st Hst) as (outs & tr & Hrun).
    exists outs, tr. rewrite Hrun.
    assert (Hv : Nat.iter 32 rotl13 (val st) = val st).
    { apply uint32_eq_bits.
      - now apply iter_rotl13_uint32.
      - exact Hst.
      - intros i Hi. rewrite iter_rotl13_testbit by assumption.
        f_equal. symmetry. apply (Z.mod_unique _ 32 (-13)); lia. }
    now rewrite Hv, set_val_id.
  - pose (st := mkState [] 1 [] EmptyString).
    assert (Hst : uint32 (val st)) by (compute; split; [discriminate | reflexivity]).
    destruct (run_steps_bit_rotate 4 st Hst) as (outs & tr & Hrun).
    exists st, (set_val st (Nat.iter 4 rotl13 (val st))), outs, tr.
    split; [exact Hst |]. split; [exact Hrun |].
    vm_compute. discriminate.
Qed.

Lemma bit_rotate_round_trip_witness :
  let st := mkState (ustr "ab") 3735928559 (ustr "s") EmptyString in
  exists outs tr,
    run_steps (repeat "bit_rotate"%string 32) st = Ok (st, outs, tr).
Proof.
  intros st. apply (proj1 bit_rotate_round_trip st). simpl. lia.
Defined.

(** ** Hexadecimal rendering *)

Lemma length_append (a b : string) :
  String.length (a ++ b) = (String.length a + String.length b)%nat.
Proof. induction a as [| c a IH]; simpl; [reflexivity | now rewrite IH]. Qed.

Lemma append_assoc (a b c : string) : ((a ++ b) ++ c)%string = (a ++ (b ++ c))%string.
Proof. induction a as [| x a IH]; simpl; [reflexivity | now rewrite IH]. Qed.

Lemma append_nil_r (a : string) : (a ++ "")%string = a.
Proof. induction a as [| x a IH]; simpl; [reflexivity | now rewrite IH]. Qed.

Lemma length_zeros (k : nat) : String.length (zeros k) = k.
Proof. induction k as [| k IH]; simpl; [reflexivity | now rewrite IH]. Qed.

Lemma zeros_snoc (k : nat) : (zeros k ++ "0")%string = zeros (S k).
Proof. induction k as [| k IH]; simpl; [reflexivity | now rewrite IH]. Qed.

Lemma length_fixedHex (k : nat) (n : Z) : String.length (fixedHex k n) = k.
Proof.
  revert n. induction k as [| k IH]; intros n; simpl; [reflexivity |].
  rewrite length_append, IH. simpl. lia.
Qed.

Lemma fixedHex_0 (k : nat) : fixedHex k 0 = zeros k.
Proof.
  induction k as [| k IH]; [reflexivity |].
  cbn [fixedHex]. change (0 / 16) with 0. rewrite IH.
  change (String (hexDigit (0 mod 16)) "") with "0"%string.
  apply zeros_snoc.
Qed.

Lemma pow16_succ (k : nat) : 16 ^ Z.of_nat (S k) = 16 * 16 ^ Z.of_nat k.
Proof. rewrite Nat2Z.inj_succ, Z.pow_succ_r by lia. reflexivity. Qed.

(** The digits never outnumber what the magnitude allows, whatever the
    fuel. *)
Lemma length_hexDigits (fuel : nat) :
  forall (k : nat) (n : Z),
    0 <= n < 16 ^ Z.of_nat (S k) ->
    (String.length (hexDigits fuel n) <= S k)%nat.
Proof.
  induction fuel as [| fuel IH]; intros k n Hn; cbn [hexDigits].
  - simpl. lia.
  - destruct (Z.ltb_spec n 16) as [Hlt | Hge].
    + simpl. lia.
    + rewrite length_append. cbn [String.length].
      destruct k as [| k].
      * change (16 ^ Z.of_nat 1) with 16 in Hn. lia.
      * specialize (IH k (n / 16)).
        rewrite (pow16_succ (S k)) in Hn.
        assert (0 <= n / 16 < 16 ^ Z.of_nat (S k)).
        { split; [apply Z.div_pos; lia |].
          apply Z.div_lt_upper_bound; lia. }
        specialize (IH H). lia.
Qed.

(** With enough fuel, padding the digits with zeros to [k] characters
    gives the [k] low digits. *)
Lemma hexDigits_fixedHex (fuel : nat) :
  forall (k : nat) (n : Z),
    0 <= n < 16 ^ Z.of_nat (S fuel) ->
    n < 16 ^ Z.of_nat (S k) ->
    (zeros (S k - String.length (hexDigits (S fuel) n)) ++ hexDigits (S fuel) n)%string
    = fixedHex (S k) n.
Proof.
  induction fuel as [| fuel IH]; intros k n Hn Hk.
  - change (16 ^ Z.of_nat 1) with 16 in Hn.
    cbn [hexDigits fixedHex].
    destruct (Z.ltb_spec n 16) as [_ | Hge]; [| lia].
    rewrite (Z.div_small n 16), fixedHex_0, (Z.mod_small n 16) by lia.
    cbn [String.length]. replace (S k - 1)%nat with k by lia. reflexivity.
  - remember (S fuel) as f eqn:Hf. cbn [hexDigits fixedHex].
    destruct (Z.ltb_spec n 16) as [Hlt | Hge].
    + rewrite (Z.div_small n 16), fixedHex_0, (Z.mod_small n 16) by lia.
      cbn [String.length]. replace (S k - 1)%nat with k by lia. reflexivity.
    + subst f. rewrite (pow16_succ (S fuel)) in Hn.
      destruct k as [| k].
      { change (16 ^ Z.of_nat 1) with 16 in Hk. lia. }
      rewrite (pow16_succ (S k)) in Hk.
      assert (H0 : 0 <= n / 16) by (apply Z.div_pos; lia).
      assert (H1 : n / 16 < 16 ^ Z.of_nat (S fuel))
        by (apply Z.div_lt_upper_bound; lia).
      assert (H2 : n / 16 < 16 ^ Z.of_nat (S k))
        by (apply Z.div_lt_upper_bound; lia).
      rewrite <- (IH k (n / 16) (conj H0 H1) H2).
      rewrite length_append, append_assoc. cbn [String.length].
      f_equal. f_equal. lia.
Qed.

(** The fuel [toString16] gives is enough. *)
Lemma hexDigits_fuel (m : Z) : 0 <= m -> m < 16 ^ Z.of_nat (S (Z.to_nat (Z.log2 m))).
Proof.
  intros Hm.
  destruct (Z.eq_dec m 0) as [-> | Hne]; [reflexivity |].
  pose proof (Z.log2_nonneg m) as Hl.
  pose proof (Z.log2_spec m ltac:(lia)) as [_ Hup].
  rewrite Nat2Z.inj_succ, Z2Nat.id by exact Hl.
  apply Z.lt_le_trans with (2 ^ Z.succ (Z.log2 m)); [exact Hup |].
  apply Z.pow_le_mono_l. lia.
Qed.

Lemma padStart8_toString16 (v : Z) :
  uint32 v -> padStart8 (toString16 v) = hex8 v.
Proof.
  intros [H0 H1]. unfold padStart8, toString16, hex8.
  destruct (Z.ltb_spec v 0) as [Hneg | _]; [lia |].
  rewrite Z.abs_eq by exact H0.
  apply hexDigits_fixedHex.
  - split; [exact H0 | now apply hexDigits_fuel].
  - exact H1.
Qed.

Lemma length_hex8 (v : Z) : String.length (hex8 v) = 8%nat.
Proof. apply length_fixedHex. Qed.

Lemma allHex_append (a b : string) : allHex (a ++ b) = allHex a && allHex b.
Proof.
  induction a as [| c a IH]; simpl; [reflexivity |].
  now rewrite IH, andb_assoc.
Qed.

Lemma isHexChar_hexDigit (d : Z) : 0 <= d < 16 -> isHexChar (hexDigit d) = true.
Proof.
  intros Hd.
  assert (Hcases : d = 0 \/ d = 1 \/ d = 2 \/ d = 3 \/ d = 4 \/ d = 5 \/ d = 6
                   \/ d = 7 \/ d = 8 \/ d = 9 \/ d = 10 \/ d = 11 \/ d = 12
                   \/ d = 13 \/ d = 14 \/ d = 15) by lia.
  repeat (destruct Hcases as [-> | Hcases]; [reflexivity |]). now subst.
Qed.

Lemma allHex_fixedHex (k : nat) (n : Z) : allHex (fixedHex k n) = true.
Proof.
  revert n. induction k as [| k IH]; intros n; [reflexivity |].
  cbn [fixedHex]. rewrite allHex_append, IH. cbn [allHex andb].
  rewrite isHexChar_hexDigit; [reflexivity |].
  apply Z.mod_pos_bound. reflexivity.
Qed.

(** ** Running a pipeline *)

(** A pipeline in two parts runs the first part, then the second on the
    state the first left. *)
Lemma run_steps_app (a b : list string) :
  forall st,
    run_steps (a ++ b) st =
    ('(st1, o1, t1) <- run_steps a st ;;
     '(st2, o2, t2) <- run_steps b st1 ;;
     Ok (st2, o1 ++ o2, t1 ++ t2)).
Proof.
  induction a as [| key a IH]; intros st.
  - cbn [app run_steps bind].
    destruct (run_steps b st) as [[[st2 o2] t2] | e]; reflexivity.
  - cbn [app run_steps].
    destruct (lookup key STEPS) as [step |]; [| reflexivity].
    destruct (run step st) as [st1 r].
    rewrite IH.
    destruct (run_steps a st1) as [[[st2 o2] t2] | e]; [| reflexivity].
    cbn [bind].
    destruct (run_steps b st2) as [[[st3 o3] t3] | e]; reflexivity.
Qed.

Lemma lookup_hex_encode :
  lookup "hex_encode" STEPS = Some (mkStep "🔡 Hex Encode" Steps.hex_encode).
Proof. reflexivity. Qed.

Lemma str_or_empty (s : string) : str_or s "" = s.
Proof. now destruct s. Qed.

Lemma hex_encode_hexStr (st : HashState) :
  hexStr (fst (Steps.hex_encode st))
  = (hexStr st ++ padStart8 (toString16 (val st)))%string.
Proof. unfold Steps.hex_encode. cbn [fst set_hexStr hexStr]. now rewrite str_or_empty. Qed.

(** ** Hex encoding leaves the accumulator alone *)

(** C10.  [hex_encode] never changes the accumulator, so appending it to
    a pipeline does not change the accumulator the run ends with; run
    twice in a row on an accumulator in [0, 2^32) it appends the same
    word twice, the eight hexadecimal digits of the accumulator, which
    from an empty [hexStr] makes a string of 16 characters. *)
Theorem hex_encode_frame :
  (forall st : HashState, val (fst (Steps.hex_encode st)) = val st) /\
  (forall password salt steps r,
      runHash password salt steps = Ok r ->
      exists r',
        runHash password salt (steps ++ ["hex_encode"%string]) = Ok r' /\
        stateVal r' = stateVal r) /\
  (forall st : HashState,
      0 <= val st < 2 ^ 32 ->
      let w := padStart8 (toString16 (val st)) in
      let st2 := fst (Steps.hex_encode (fst (Steps.hex_encode st))) in
      val st2 = val st /\
      hexStr st2 = (hexStr st ++ w ++ w)%string /\
      w = hex8 (val st) /\
      String.length w = 8%nat /\
      allHex w = true /\
      (hexStr st = EmptyString -> String.length (hexStr st2) = 16%nat)).
Proof.
  split; [| split].
  - intros st. reflexivity.
  - intros password salt steps r. unfold runHash.
    rewrite run_steps_app.
    destruct (run_steps steps _) as [[[st1 o1] t1] | e]; [| discriminate].
    cbn [bind]. intros Hr. injection Hr as <-.
    cbn [run_steps]. rewrite lookup_hex_encode. cbn [run].
    destruct (Steps.hex_encode st1) as [st2 r2] eqn:Hh.
    assert (Hv : val st2 = val st1).
    { replace st2 with (fst (Steps.hex_encode st1)) by now rewrite Hh.
      reflexivity. }
    cbn [bind]. eexists. split; [reflexivity |].
    cbn [stateVal]. exact Hv.
  - intros st Hst w st2.
    assert (Hw : w = hex8 (val st)) by (apply padStart8_toString16; exact Hst).
    assert (Hh : hexStr st2 = (hexStr st ++ w ++ w)%string).
    { subst st2. rewrite hex_encode_hexStr, hex_encode_val, hex_encode_hexStr.
      apply append_assoc. }
    split; [reflexivity |]. split; [exact Hh |]. split; [exact Hw |].
    split; [rewrite Hw; apply length_hex8 |].
    split; [rewrite Hw; apply allHex_fixedHex |].
    intros Hempty. rewrite Hh, Hempty, Hw. cbn [append].
    rewrite length_append, length_hex8. reflexivity.
Qed.

Lemma hex_encode_frame_witness :
  let st := mkState (ustr "ab") 48879 (ustr "") EmptyString in
  let st2 := fst (Steps.hex_encode (fst (Steps.hex_encode st))) in
  hexStr st2 = "0000beef0000beef"%string /\
  String.length (hexStr st2) = 16%nat /\
  (exists r',
      runHash (ustr "ab") (ustr "") ["charcode_sum"; "hex_encode"]%string = Ok r' /\
      stateVal r' = 37305421).
Proof.
  intros st st2.
  destruct (proj2 (proj2 hex_encode_frame) st) as (_ & Hh & _ & _ & _ & Hlen).
  { simpl. lia. }
  split; [exact Hh |]. split; [apply Hlen; reflexivity |].
  apply (proj1 (proj2 hex_encode_frame) (ustr "ab") (ustr "")
           ["charcode_sum"%string]
           (mkRun "02393c4d-1bf2d33"
                  [mkTrace "∑ Char Code Sum" 37305421 None]
                  [mkResult 37305421 None] 37305421)).
  reflexivity.
Defined.

(** ** Modular exponentiation *)

Section ModExp.

Variable M : Z.
Hypothesis M_pos : 0 < M.

(** [modexp_while] is the loop of the source: while [exp > 0n], multiply
    [result] by [base] when [exp] is odd, square [base], halve [exp]. *)
Lemma modexp_while_unfold (exp result base : Z) :
  Steps.modexp_while M exp result base =
  if 0 <? exp then
    Steps.modexp_while M (Z.shiftr exp 1)
      (if JS.rem exp 2 =? 1 then JS.rem (result * base) M else result)
      (JS.rem (base * base) M)
  else result.
Proof.
  destruct exp as [| e | e]; try reflexivity.
  destruct e as [e | e |]; [| | reflexivity].
  - change (0 <? Z.pos e~1) with true. cbv iota.
    change (Z.shiftr (Z.pos e~1) 1) with (Z.pos e).
    assert (Hodd : JS.rem (Z.pos e~1) 2 = 1).
    { unfold JS.rem. rewrite Z.rem_mod_nonneg by lia.
      rewrite Pos2Z.inj_xI, Z.add_comm, Z.mul_comm.
      now rewrite Z.mod_add by discriminate. }
    rewrite Hodd. reflexivity.
  - change (0 <? Z.pos e~0) with true. cbv iota.
    change (Z.shiftr (Z.pos e~0) 1) with (Z.pos e).
    assert (Heven : JS.rem (Z.pos e~0) 2 = 0).
    { unfold JS.rem. rewrite Z.rem_mod_nonneg by lia.
      rewrite Pos2Z.inj_xO, Z.mul_comm.
      now rewrite Z.mod_mul by discriminate. }
    rewrite Heven. reflexivity.
Qed.

Lemma rem_nonneg (a : Z) : 0 <= a -> JS.rem a M = a mod M.
Proof. intros Ha. unfold JS.rem. apply Z.rem_mod_nonneg; lia. Qed.

Lemma mod_nonneg (a : Z) : 0 <= a mod M.
Proof. apply Z.mod_pos_bound. exact M_pos. Qed.

Lemma mul_pow_mod (r x : Z) (e : positive) :
  (r * (x mod M) ^ Zpos e) mod M = (r * x ^ Zpos e) mod M.
Proof.
  rewrite Z.mul_mod by lia.
  rewrite <- (Zpower_mod x (Zpos e) M) by lia.
  rewrite <- Z.mul_mod by lia. reflexivity.
Qed.

(** The loop computes [result * base ^ exp] modulo [M]. *)
Lemma modexp_loop_pow (e : positive) :
  forall result base,
    0 <= result -> 0 <= base ->
    Steps.modexp_loop M e result base = (result * base ^ Zpos e) mod M.
Proof.
  induction e as [e IH | e IH |]; intros r b Hr Hb; cbn [Steps.modexp_loop].
  - rewrite !rem_nonneg by nia.
    rewrite IH by apply mod_nonneg.
    rewrite mul_pow_mod, Z.mul_mod_idemp_l by lia.
    f_equal. rewrite Pos2Z.inj_xI, Z.pow_add_r, Z.pow_1_r, Z.pow_mul_r by lia.
    rewrite Z.pow_2_r. ring.
  - rewrite !rem_nonneg by nia.
    rewrite IH by (apply mod_nonneg || exact Hr).
    rewrite mul_pow_mod.
    f_equal. rewrite Pos2Z.inj_xO, Z.pow_mul_r by lia.
    rewrite Z.pow_2_r. reflexivity.
  - rewrite rem_nonneg by nia. now rewrite Z.pow_1_r.
Qed.

End ModExp.

Lemma modular_exp_val (st : HashState) :
  uint32 (val st) ->
  val (fst (Steps.modular_exp st))
  = JS.toUint32 (modular_exp_base (val st) ^ 65537 mod (2 ^ 31 - 1)).
Proof.
  intros [H0 H1]. unfold Steps.modular_exp. cbv zeta.
  rewrite store_val, JSFacts.ushr_0.
  f_equal. unfold modular_exp_base.
  change (2 ^ 31 - 1) with 2147483647.
  set (M := 2147483647).
  assert (HM : 0 < M) by reflexivity.
  assert (Hbase : JS.rem (JS.num_or (val st) 1) M
                  = if val st =? 0 then 1 else val st mod M).
  { unfold JS.num_or. destruct (Z.eqb_spec (val st) 0) as [Hz | Hne].
    - reflexivity.
    - apply rem_nonneg; lia. }
  rewrite Hbase. clear Hbase.
  unfold Steps.modexp_while.
  destruct (Z.eqb_spec (val st) 0) as [Hz | Hnz].
  - rewrite Hz. change (0 mod M =? 0) with true. cbv iota.
    change (1 =? 0) with false. cbv iota.
    rewrite modexp_loop_pow by lia. now rewrite Z.mul_1_l.
  - destruct (Z.eqb_spec (val st mod M) 0) as [Hm | Hm].
    + rewrite modexp_loop_pow by lia. now rewrite Z.mul_1_l.
    + pose proof (Z.mod_pos_bound (val st) M HM) as Hb.
      rewrite modexp_loop_pow by lia.
      rewrite Z.mul_1_l. symmetry. apply Zpower_mod. exact HM.
Qed.

(** C4, as amended.  On an accumulator in [0, 2^32) the step stores
    base^65537 mod (2^31 - 1), narrowed to 32 bits (which changes
    nothing, the value being below 2^31), where base is the accumulator,
    or 1 when the accumulator is a multiple of 2^31 - 1: 0, 2^31 - 1 or
    2^32 - 2.  Off these three values that is the claim's formula. *)
Theorem modular_exp_spec (st : HashState) :
  0 <= val st < 2 ^ 32 ->
  val (fst (Steps.modular_exp st))
  = JS.toUint32 (modular_exp_base (val st) ^ 65537 mod (2 ^ 31 - 1)) /\
  val (fst (Steps.modular_exp st))
  = modular_exp_base (val st) ^ 65537 mod (2 ^ 31 - 1) /\
  (val st mod (2 ^ 31 - 1) = 0 <->
   val st = 0 \/ val st = 2 ^ 31 - 1 \/ val st = 2 ^ 32 - 2) /\
  (val st <> 2 ^ 31 - 1 -> val st <> 2 ^ 32 - 2 ->
   val (fst (Steps.modular_exp st)) = claimed_modular_exp (val st)).
Proof.
  intros Hst.
  pose proof (modular_exp_val st Hst) as Hval.
  assert (Hmult : val st mod (2 ^ 31 - 1) = 0 <->
                  val st = 0 \/ val st = 2 ^ 31 - 1 \/ val st = 2 ^ 32 - 2).
  { change (2 ^ 31 - 1) with 2147483647 in *.
    change (2 ^ 32 - 2) with 4294967294 in *.
    change (2 ^ 32) with 4294967296 in Hst.
    split.
    - intros Hm. apply Z.mod_divide in Hm; [| discriminate].
      destruct Hm as [q Hq]. lia.
    - intros [-> | [-> | ->]]; reflexivity. }
  split; [exact Hval |]. split; [| split; [exact Hmult |]].
  - rewrite Hval. apply JSFacts.toUint32_small.
    pose proof (Z.mod_pos_bound (modular_exp_base (val st) ^ 65537)
                  (2 ^ 31 - 1) eq_refl) as Hb.
    unfold JS.two32. change (2 ^ 31 - 1) with 2147483647 in *. lia.
  - intros H1 H2. rewrite Hval. unfold claimed_modular_exp, modular_exp_base.
    destruct (Z.eqb_spec (val st) 0) as [Hz | Hnz].
    + rewrite Hz. reflexivity.
    + destruct (Z.eqb_spec (val st mod (2 ^ 31 - 1)) 0) as [Hm | Hm];
        [| reflexivity].
      apply Hmult in Hm. tauto.
Qed.

Lemma modular_exp_spec_witness :
  let st := mkState (ustr "ab") 2 (ustr "") EmptyString in
  val (fst (Steps.modular_exp st)) = claimed_modular_exp 2.
Proof.
  intros st.
  refine (proj2 (proj2 (proj2 (modular_exp_spec st _))) _ _).
  - simpl. lia.
  - discriminate.
  - discriminate.
Defined.

(** C4 as the claim states it fails on the accumulator 2^31 - 1: the
    claim's base is 2^31 - 1 itself, whose power is 0 modulo 2^31 - 1,
    and the step stores 1. *)
Lemma modular_exp_claim_fails :
  let st := mkState [] 2147483647 [] EmptyString in
  0 <= val st < 2 ^ 32 /\
  val (fst (Steps.modular_exp st)) = 1 /\
  claimed_modular_exp (val st) = 0 /\
  val (fst (Steps.modular_exp st)) <> claimed_modular_exp (val st).
Proof.
  intros st.
  assert (Hc : claimed_modular_exp (val st) = 0).
  { unfold claimed_modular_exp. cbn [val st].
    change (2147483647 =? 0) with false. cbv iota.
    change (2 ^ 31 - 1) with 2147483647.
    rewrite Zpower_mod by reflexivity.
    rewrite Z_mod_same_full.
    rewrite Z.pow_0_l by reflexivity. reflexivity. }
  assert (Hv : val (fst (Steps.modular_exp st)) = 1) by (vm_compute; reflexivity).
  split; [cbn; lia |]. split; [exact Hv |]. split; [exact Hc |].
  rewrite Hv, Hc. discriminate.
Qed.

(** ** Salt injection *)

Lemma poly_sum_shift (cs : list Z) :
  forall k, poly_sum cs (S k) = 31 * poly_sum cs k.
Proof.
  induction cs as [| c cs IH]; intros k; cbn [poly_sum]; [ring |].
  rewrite IH, (Nat2Z.inj_succ k), Z.pow_succ_r by lia. ring.
Qed.

Lemma mod32_add_mul (a b s : Z) :
  (a + (b mod JS.two32) * s) mod JS.two32 = (a + b * s) mod JS.two32.
Proof.
  rewrite Z.add_mod by discriminate.
  rewrite Z.mul_mod_idemp_l by discriminate.
  rewrite <- Z.add_mod by discriminate. reflexivity.
Qed.

(** From any [sv] and [p], the loop adds [p] times the polynomial sum,
    modulo 2^32. *)
Lemma salt_loop_sum (cs : list Z) :
  forall sv p,
    JS.toUint32 (fst (salt_loop cs (sv, p)))
    = JS.toUint32 (sv + p * poly_sum cs 0).
Proof.
  unfold salt_loop.
  induction cs as [| c cs IH]; intros sv p; cbn [fold_left poly_sum fst].
  - f_equal. ring.
  - rewrite IH, poly_sum_shift, !JSFacts.ushr_0.
    rewrite JSFacts.toUint32_imul.
    unfold JS.toUint32.
    change (31 mod JS.two32) with 31.
    rewrite mod32_add_mul.
    rewrite Z.add_mod_idemp_l by discriminate.
    rewrite <- Z.mul_assoc, mod32_add_mul.
    f_equal. change (Z.of_nat 0) with 0. ring.
Qed.

Lemma salt_loop_range (cs : list Z) :
  forall sv p, uint32 sv -> uint32 (fst (salt_loop cs (sv, p))).
Proof.
  unfold salt_loop.
  induction cs as [| c cs IH]; intros sv p Hsv; cbn [fold_left fst].
  - exact Hsv.
  - apply IH, uint32_ushr.
Qed.

Lemma salt_loop_hash (cs : list Z) :
  fst (salt_loop cs (0, 1)) = poly_hash32 cs.
Proof.
  rewrite <- (JSFacts.toUint32_small (fst (salt_loop cs (0, 1)))).
  - rewrite salt_loop_sum. unfold poly_hash32, JS.toUint32.
    f_equal. ring.
  - apply salt_loop_range. split; [lia | reflexivity].
Qed.

Lemma salt_inject_val (st : HashState) :
  uint32 (val st) ->
  val (fst (Steps.salt_inject st))
  = Z.lxor (val st) (poly_hash32 (charCodes (ustr_or (salt st) (ustr "x")))).
Proof.
  intros Hst. unfold Steps.salt_inject.
  pose proof (salt_loop_hash (charCodes (ustr_or (salt st) (ustr "x")))) as Hs.
  unfold salt_loop in Hs.
  destruct (fold_left _ _ _) as [sv p]. cbn [fst] in Hs. subst sv.
  rewrite store_val, JSFacts.ushr_0, JSFacts.toUint32_bxor.
  rewrite (JSFacts.toUint32_small (val st)) by exact Hst.
  rewrite JSFacts.toUint32_small; [reflexivity |].
  apply Z.mod_pos_bound. reflexivity.
Qed.

(** On a string without surrogate pairs the char codes the loops read,
    the code points and the code units are the same list. *)
Lemma no_pair_codes (s : ustring) :
  has_surrogate_pair s = false -> charCodes s = s /\ codePoints s = s.
Proof.
  unfold charCodes.
  induction s as [| u rest IH]; intros Hs; [split; reflexivity |].
  cbn [has_surrogate_pair] in Hs. cbn [chars codePoints].
  destruct rest as [| l rest']; [split; reflexivity |].
  apply orb_false_iff in Hs. destruct Hs as [Hpair Hrest].
  rewrite Hpair. destruct (IH Hrest) as [IH1 IH2].
  cbn [map charCodeAt0 hd]. rewrite IH1, IH2. split; reflexivity.
Qed.

(** C3, as amended.  On an accumulator in [0, 2^32) and a salt that is
    not empty and holds no surrogate pair, the step XORs into the
    accumulator the polynomial hash of the salt alone, the sum of
    [salt_i * 31 ^ i] modulo 2^32, where the [salt_i] are the code points
    of the salt, there the same as its code units; on the empty salt it
    takes the string ["x"] instead and XORs 120 into the accumulator. *)
Theorem salt_inject_spec (st : HashState) :
  0 <= val st < 2 ^ 32 ->
  (salt st <> [] ->
   has_surrogate_pair (salt st) = false ->
   val (fst (Steps.salt_inject st)) = claimed_salt_inject (val st) (salt st) /\
   claimed_salt_inject (val st) (salt st)
   = Z.lxor (val st) (poly_hash32 (salt st))) /\
  (salt st = [] ->
   val (fst (Steps.salt_inject st)) = Z.lxor (val st) 120).
Proof.
  intros Hst. rewrite (salt_inject_val st Hst). unfold claimed_salt_inject.
  split.
  - intros Hne Hpair. destruct (no_pair_codes (salt st) Hpair) as [Hc Hp].
    rewrite Hp. destruct (salt st) as [| u rest]; [contradiction |].
    cbn [ustr_or]. rewrite Hc. split; reflexivity.
  - intros ->. reflexivity.
Qed.

Lemma salt_inject_spec_witness :
  let st := mkState (ustr "pwab") 7 (ustr "ab") EmptyString in
  val (fst (Steps.salt_inject st)) = claimed_salt_inject 7 (ustr "ab") /\
  claimed_salt_inject 7 (ustr "ab") = Z.lxor 7 ((97 + 98 * 31) mod 2 ^ 32).
Proof.
  intros st.
  refine (proj1 (salt_inject_spec st _) _ _).
  - simpl. lia.
  - discriminate.
  - reflexivity.
Defined.

(** On a salt with a surrogate pair the loop reads the leading surrogate
    of the pair, as the text steps do: for the salt U+1F600 the step XORs
    55357 into the accumulator, where the sum over the code points is
    128512 and the sum over the code units 55357 + 56832 * 31. *)
Lemma salt_inject_on_astral_salt :
  let st := mkState [55357; 56832] 0 [55357; 56832] EmptyString in
  val (fst (Steps.salt_inject st)) = 55357 /\
  claimed_salt_inject (val st) (salt st) = 128512 /\
  Z.lxor (val st) (poly_hash32 (salt st)) = 1817149.
Proof. repeat split. Qed.

(** C3 as the claim states it fails on the empty salt: the claim leaves
    the accumulator 0 as it is, the step makes it 120. *)
Lemma salt_inject_claim_fails :
  let st := mkState (ustr "pw") 0 [] EmptyString in
  0 <= val st < 2 ^ 32 /\
  claimed_salt_inject (val st) (salt st) = val st /\
  val (fst (Steps.salt_inject st)) = 120 /\
  val (fst (Steps.salt_inject st)) <> claimed_salt_inject (val st) (salt st).
Proof.
  intros st. split; [cbn; lia |].
  split; [reflexivity |]. split; [reflexivity |].
  vm_compute. discriminate.
Qed.

(** ** Code points and char codes *)

(** Where no code unit is a leading surrogate, char codes and code points
    are the code units themselves. *)
Lemma bmp_charCodes (s : ustring) :
  Forall (fun u => isLeadingSurrogate u = false) s ->
  charCodes s = s /\ codePoints s = s.
Proof.
  unfold charCodes.
  induction s as [| u rest IH]; intros Hs; [split; reflexivity |].
  inversion Hs as [| ? ? Hu Hrest]; subst.
  destruct (IH Hrest) as [IH1 IH2].
  cbn [chars codePoints]. destruct rest as [| l rest'].
  - split; reflexivity.
  - rewrite Hu. cbn [andb map charCodeAt0 hd]. rewrite IH1, IH2.
    split; reflexivity.
Qed.

(** On such a text the three steps do what the claim says. *)
Lemma bmp_steps_agree (st : HashState) :
  Forall (fun u => isLeadingSurrogate u = false) (str st) ->
  Steps.charcode_sum st = Claimed.charcode_sum st /\
  Steps.xor_fold st = Claimed.xor_fold st /\
  Steps.ascii_square st = Claimed.ascii_square st.
Proof.
  intros Hs. destruct (bmp_charCodes (str st) Hs) as [H1 H2].
  unfold Steps.charcode_sum, Steps.xor_fold, Steps.ascii_square,
    Claimed.charcode_sum, Claimed.xor_fold, Claimed.ascii_square.
  rewrite H1, H2. repeat split.
Qed.

(** C5, at the text made of the one character U+1F600 (the surrogate pair
    D83D DE00).  The loops run once, as the claim says, but read the char
    code 55357 of the leading surrogate where the claim has the code
    point 128512. *)
Theorem string_steps_on_astral_text :
  let text := [55357; 56832] in
  let st := mkState text 0 [] EmptyString in
  codePoints text = [128512] /\
  charCodes text = [55357] /\
  val (fst (Steps.charcode_sum st)) = 55357 /\
  val (fst (Claimed.charcode_sum st)) = 128512 /\
  val (fst (Steps.xor_fold st)) = 55357 /\
  val (fst (Claimed.xor_fold st)) = 128512 /\
  val (fst (Steps.ascii_square st)) = 3064397449 /\
  val (fst (Claimed.ascii_square st)) = 3630432256 /\
  (exists r, runHash text [] ["charcode_sum"%string] = Ok r /\
             stateVal r = 37360583 /\
             stateVal r <> JS.toUint32 (seed text + 128512)).
Proof.
  intros text st. repeat (split; [reflexivity |]).
  eexists. split; [reflexivity |]. split; [reflexivity |].
  vm_compute. discriminate.
Qed.

(** ** The avalanche finalizer *)

Module MixFacts.

Import JS JSFacts.

Lemma toInt32_toUint32 (x : Z) : toInt32 (toUint32 x) = toInt32 x.
Proof. unfold toInt32, toUint32. now rewrite Z.mod_mod by discriminate. Qed.

Lemma toUint32_ushr (a n : Z) : toUint32 (ushr a n) = ushr a n.
Proof. apply toUint32_small, ushr_range. Qed.

Lemma bxor_toInt32 (a b : Z) :
  bxor a b = toInt32 (Z.lxor (toUint32 a) (toUint32 b)).
Proof.
  rewrite <- toUint32_bxor. unfold bxor.
  now rewrite toUint32_toInt32, toInt32_toUint32.
Qed.

(** [h ^ (h >>> n)], read as an unsigned word. *)
Lemma xorshift_u (h n : Z) :
  toUint32 (bxor h (ushr h n))
  = Z.lxor (toUint32 h) (Z.shiftr (toUint32 h) (n mod 32)).
Proof. rewrite toUint32_bxor, toUint32_ushr. reflexivity. Qed.

(** [Math.imul(h, c) >>> 0] *)
Lemma imul_u (h c : Z) :
  ushr (imul h c) 0 = (toUint32 h * toUint32 c) mod 2 ^ 32.
Proof. rewrite ushr_0. apply toUint32_imul. Qed.

Lemma shiftr_uint32 (h n : Z) : uint32 h -> 0 <= n -> uint32 (Z.shiftr h n).
Proof.
  intros [H0 H1] Hn. rewrite Z.shiftr_div_pow2 by exact Hn.
  assert (Hp : 0 < 2 ^ n) by (apply Z.pow_pos_nonneg; lia).
  split.
  - apply Z.div_pos; lia.
  - apply Z.le_lt_trans with h; [| exact H1].
    apply Z.div_le_upper_bound; [exact Hp | nia].
Qed.

Lemma lxor_uint32 (a b : Z) : uint32 a -> uint32 b -> uint32 (Z.lxor a b).
Proof. exact (lxor_range a b). Qed.

Lemma fmix32_uint32 (h : Z) : uint32 (fmix32 h).
Proof.
  unfold fmix32.
  apply lxor_uint32; [| apply shiftr_uint32; [| lia]];
    apply Z.mod_pos_bound; reflexivity.
Qed.

(** One pass of the five lines, read as an unsigned word, is the
    finalize formula. *)
Lemma mix_u (h : Z) : toUint32 (Steps.mix h) = fmix32 (toUint32 h).
Proof.
  unfold Steps.mix, fmix32.
  rewrite xorshift_u, !imul_u, !xorshift_u.
  assert (Hm : forall x, toUint32 (x mod 2 ^ 32) = x mod 2 ^ 32)
    by (intros x; apply toUint32_idem).
  rewrite !Hm. reflexivity.
Qed.

Lemma iter_mix_u (n : nat) (h : Z) :
  toUint32 (Nat.iter n Steps.mix h) = Nat.iter n fmix32 (toUint32 h).
Proof.
  induction n as [| n IH]; [reflexivity |].
  rewrite !Nat.iter_succ. now rewrite mix_u, IH.
Qed.

End MixFacts.

(** The [avalanche] step stores the finalize formula of the accumulator,
    and [rounds] eight passes of it. *)
Lemma avalanche_val (st : HashState) :
  uint32 (val st) -> val (fst (Steps.avalanche st)) = fmix32 (val st).
Proof.
  intros Hst. unfold Steps.avalanche.
  rewrite store_val, !JSFacts.ushr_0, MixFacts.mix_u, JSFacts.toUint32_idem.
  now rewrite JSFacts.toUint32_small.
Qed.

Lemma rounds_val (st : HashState) :
  uint32 (val st) -> val (fst (Steps.rounds st)) = Nat.iter 8 fmix32 (val st).
Proof.
  intros Hst. unfold Steps.rounds.
  rewrite store_val, JSFacts.ushr_0, MixFacts.iter_mix_u.
  now rewrite JSFacts.toUint32_small.
Qed.

(** The second word of the digest [runHash] makes up is the finalize
    formula of the accumulator read as a signed 32-bit integer: the last
    XOR is not followed by [>>> 0]. *)
Lemma two_word_hex_signed (h1 : Z) :
  uint32 h1 ->
  two_word_hex h1
  = (hex8 h1 ++ padStart8 (toString16 (JS.toInt32 (fmix32 h1))))%string.
Proof.
  intros Hh. unfold two_word_hex.
  rewrite padStart8_toString16 by exact Hh. f_equal. f_equal. f_equal.
  rewrite MixFacts.bxor_toInt32. f_equal.
  rewrite MixFacts.toUint32_ushr.
  unfold fmix32.
  rewrite !MixFacts.imul_u, !MixFacts.xorshift_u.
  assert (Hm : forall x, JS.toUint32 (x mod 2 ^ 32) = x mod 2 ^ 32)
    by (intros x; apply JSFacts.toUint32_idem).
  rewrite !Hm.
  rewrite (JSFacts.toUint32_small h1) by exact Hh.
  unfold JS.ushr. rewrite !Hm.
  change (16 mod 32) with 16. change (13 mod 32) with 13.
  change (JS.toUint32 2246822507) with 2246822507.
  change (JS.toUint32 3266489909) with 3266489909.
  rewrite JSFacts.toUint32_small; [reflexivity |].
  apply MixFacts.shiftr_uint32; [apply Z.mod_pos_bound; reflexivity | lia].
Qed.

(** Where the finalize formula gives a word below 2^31 the made-up digest
    is the claim's ... *)
Lemma two_word_hex_low (h1 : Z) :
  uint32 h1 -> fmix32 h1 < 2 ^ 31 ->
  two_word_hex h1 = claimed_two_word_hex h1.
Proof.
  intros Hh Hlow. rewrite two_word_hex_signed by exact Hh.
  unfold claimed_two_word_hex. f_equal.
  pose proof (MixFacts.fmix32_uint32 h1) as Hf.
  rewrite JSFacts.toInt32_small by (unfold JS.two31, uint32 in *; lia).
  now apply padStart8_toString16.
Qed.

(** ... and where it gives a word with the top bit set the digest holds a
    minus sign, so it is not a string of hexadecimal digits. *)
Lemma two_word_hex_high (h1 : Z) :
  uint32 h1 -> 2 ^ 31 <= fmix32 h1 ->
  allHex (two_word_hex h1) = false.
Proof.
  intros Hh Hhigh. rewrite two_word_hex_signed by exact Hh.
  pose proof (MixFacts.fmix32_uint32 h1) as Hf.
  rewrite JSFacts.toInt32_high by (unfold JS.two31, JS.two32, uint32 in *; lia).
  unfold toString16.
  destruct (Z.ltb_spec (fmix32 h1 - JS.two32) 0) as [_ | Hge];
    [| unfold JS.two32, uint32 in *; lia].
  unfold padStart8. rewrite !allHex_append. cbn [allHex].
  change (isHexChar "-") with false. cbn [andb].
  now rewrite !andb_false_r.
Qed.

(** ** Pipelines of catalog steps *)

Lemma lookup_In_pair (key : string) (tbl : list (string * Step)) (step : Step) :
  lookup key tbl = Some step -> In (key, step) tbl.
Proof.
  induction tbl as [| [k s] tbl IH]; simpl; [discriminate |].
  destruct (String.eqb_spec key k) as [-> | Hne].
  - intros H. injection H as <-. now left.
  - intros H. right. now apply IH.
Qed.

(** Only [hex_encode] writes to [hexStr]. *)
Lemma catalog_hexStr :
  Forall (fun '(k, s) =>
            if String.eqb k "hex_encode" then run s = Steps.hex_encode
            else forall st, hexStr (fst (run s st)) = hexStr st)
         STEPS.
Proof.
  unfold STEPS.
  repeat apply Forall_cons; try apply Forall_nil;
    cbn [String.eqb Ascii.eqb Bool.eqb run]; try reflexivity; intros st.
  - unfold Steps.polynomial_roll. now destruct (fold_left _ _ _).
  - unfold Steps.salt_inject. now destruct (fold_left _ _ _).
Qed.

Lemma step_hexStr (key : string) (step : Step) (st : HashState) :
  lookup key STEPS = Some step ->
  key <> "hex_encode"%string ->
  hexStr (fst (run step st)) = hexStr st.
Proof.
  intros Hk Hne. apply lookup_In_pair in Hk.
  pose proof catalog_hexStr as Hall. rewrite Forall_forall in Hall.
  specialize (Hall _ Hk). cbv beta iota in Hall.
  destruct (String.eqb_spec key "hex_encode"); [contradiction |].
  apply Hall.
Qed.

(** A valid pipeline runs to the end, whatever the state. *)
Lemma run_steps_total (steps : list string) :
  valid_pipeline steps ->
  forall st, exists st' outs tr, run_steps steps st = Ok (st', outs, tr).
Proof.
  induction steps as [| key steps IH]; intros Hv st.
  - now exists st, [], [].
  - inversion Hv as [| ? ? Hk Hrest]; subst.
    cbn [run_steps].
    destruct (lookup key STEPS) as [step |]; [| contradiction].
    destruct (run step st) as [st1 r].
    destruct (IH Hrest st1) as (st2 & outs & tr & Hrun).
    rewrite Hrun. cbn [bind]. eexists. eexists. eexists. reflexivity.
Qed.

(** Each [hex_encode] step of a run adds eight characters to [hexStr],
    and no other step touches it. *)
Lemma run_steps_hexStr (steps : list string) :
  forall st st' outs tr,
    uint32 (val st) ->
    run_steps steps st = Ok (st', outs, tr) ->
    String.length (hexStr st')
    = (String.length (hexStr st) + 8 * hex_steps steps)%nat.
Proof.
  unfold hex_steps.
  induction steps as [| key steps IH]; intros st st' outs tr Hst Hrun;
    cbn [run_steps] in Hrun.
  - injection Hrun as <- _ _. simpl. lia.
  - destruct (lookup key STEPS) as [step |] eqn:Hk; [| discriminate].
    destruct (run step st) as [st1 r] eqn:Hr.
    destruct (run_steps steps st1) as [[[st2 outs2] tr2] | e] eqn:Hrest;
      cbn [bind] in Hrun; [| discriminate].
    injection Hrun as <- _ _.
    assert (H1 : st1 = fst (run step st)) by now rewrite Hr.
    assert (Hst1 : uint32 (val st1))
      by (rewrite H1; now apply (step_uint32 key)).
    rewrite (IH st1 st2 outs2 tr2 Hst1 Hrest).
    cbn [count_occ].
    destruct (string_dec key "hex_encode") as [-> | Hne].
    + rewrite lookup_hex_encode in Hk. injection Hk as <-.
      cbn [run] in H1. rewrite H1, hex_encode_hexStr, length_append.
      rewrite padStart8_toString16, length_hex8 by exact Hst.
      destruct (string_dec "hex_encode" "hex_encode"); [lia | contradiction].
    + destruct (string_dec "hex_encode" key) as [Heq | _];
        [now symmetry in Heq |].
      rewrite H1, (step_hexStr key step st Hk Hne). reflexivity.
Qed.

(** What [runHash] returns on a valid pipeline: with [N >= 1]
    [hex_encode] steps the digest has [8 * N] characters; with none it is
    the made-up two-word digest of the final accumulator. *)
Lemma runHash_valid (password salt : ustring) (steps : list string) :
  valid_pipeline steps ->
  exists r,
    runHash password salt steps = Ok r /\
    uint32 (stateVal r) /\
    (hex_steps steps = 0%nat -> finalHash r = two_word_hex (stateVal r)) /\
    ((1 <= hex_steps steps)%nat ->
     String.length (finalHash r) = (8 * hex_steps steps)%nat).
Proof.
  intros Hv. unfold runHash.
  set (st0 := set_val _ _).
  assert (H0 : uint32 (val st0)) by apply seed_uint32.
  destruct (run_steps_total steps Hv st0) as (st' & outs & tr & Hrun).
  pose proof (run_steps_uint32 steps st0 st' outs tr H0 Hrun) as Hval.
  pose proof (run_steps_hexStr steps st0 st' outs tr H0 Hrun) as Hlen.
  change (hexStr st0) with EmptyString in Hlen. cbn [String.length plus] in Hlen.
  rewrite Hrun. cbn [bind]. eexists. split; [reflexivity |].
  cbn [stateVal finalHash]. split; [exact Hval |]. split.
  - intros HN. rewrite HN in Hlen.
    destruct (hexStr st'); [reflexivity | discriminate].
  - intros HN. destruct (hexStr st') eqn:Hh.
    + cbn [String.length] in Hlen. lia.
    + exact Hlen.
Qed.

(** ** The digest of a pipeline without hex_encode *)

(** C1, at the pipeline [charcode_sum] on the password "ab" and the empty
    salt.  The accumulator ends at 37305421 = 0x02393c4d, whose finalize
    formula is 0xfe40d2cd; the claim's digest is "02393c4dfe40d2cd", and
    [runHash] returns "02393c4d-1bf2d33": it renders the second word as
    the signed integer -0x1bf2d33.  On the password "b" the digest has 17
    characters. *)
Theorem two_word_digest_sign :
  (exists r,
      runHash (ustr "ab") (ustr "") ["charcode_sum"%string] = Ok r /\
      hex_steps ["charcode_sum"%string] = 0%nat /\
      stateVal r = 37305421 /\
      fmix32 (stateVal r) = 4265661133 /\
      claimed_two_word_hex (stateVal r) = "02393c4dfe40d2cd"%string /\
      finalHash r = "02393c4d-1bf2d33"%string /\
      allHex (finalHash r) = false) /\
  (exists r,
      runHash (ustr "b") (ustr "") ["charcode_sum"%string] = Ok r /\
      claimed_two_word_hex (stateVal r) = "811c9e27cda5ab64"%string /\
      finalHash r = "811c9e27-325a549c"%string /\
      String.length (finalHash r) = 17%nat).
Proof.
  split; eexists; (split; [reflexivity |]); repeat split; reflexivity.
Qed.

(** On a valid pipeline without [hex_encode] the digest is the claim's
    exactly when the finalize formula of the final accumulator is below
    2^31; otherwise it holds a minus sign. *)
Lemma runHash_no_hex (password salt : ustring) (steps : list string) :
  valid_pipeline steps ->
  hex_steps steps = 0%nat ->
  exists r,
    runHash password salt steps = Ok r /\
    (fmix32 (stateVal r) < 2 ^ 31 ->
     finalHash r = claimed_two_word_hex (stateVal r) /\
     String.length (finalHash r) = 16%nat /\
     allHex (finalHash r) = true) /\
    (2 ^ 31 <= fmix32 (stateVal r) -> allHex (finalHash r) = false).
Proof.
  intros Hv H0.
  destruct (runHash_valid password salt steps Hv) as (r & Hr & Hval & Hnone & _).
  exists r. split; [exact Hr |]. rewrite (Hnone H0). split.
  - intros Hlow. rewrite (two_word_hex_low _ Hval Hlow).
    unfold claimed_two_word_hex. split; [reflexivity |]. split.
    + now rewrite length_append, !length_hex8.
    + unfold hex8. now rewrite allHex_append, !allHex_fixedHex.
  - intros Hhigh. now apply two_word_hex_high.
Qed.

(** ** The empty pipeline *)

(** C2, as amended.  [runHash] does not reject a zero-length pipeline: it
    returns a result with an empty trace, the seed as final accumulator
    and the digest made up from the seed.  The rejection is the click
    handler's, which alerts and does not call [runHash]. *)
Theorem runHash_empty_pipeline (password salt input_password input_salt : ustring) :
  runHash password salt []
  = Ok (mkRun (two_word_hex (seed password)) [] [] (seed password)) /\
  btn_run_click [] input_password input_salt
  = Alerted "Add at least one step to your pipeline first!".
Proof. split; reflexivity. Qed.

(** C2 as the claim states it fails: on the empty password and the salt
    "s" the empty pipeline raises nothing and a result comes back, the
    digest of the seed 0. *)
Lemma runHash_empty_pipeline_no_error :
  runHash (ustr "") (ustr "s") []
  = Ok (mkRun "0000000000000000" [] [] 0) /\
  ~ (exists e, runHash (ustr "") (ustr "s") [] = Throw e).
Proof.
  split; [reflexivity |].
  intros [e He]. vm_compute in He. discriminate.
Qed.

(** ** Unknown step ids *)

Lemma run_steps_unknown (key : string) (steps : list string) :
  In key steps -> lookup key STEPS = None ->
  forall st, run_steps steps st = Throw TypeError.
Proof.
  intros Hin Hk.
  induction steps as [| key' steps IH]; intros st; [contradiction |].
  cbn [run_steps].
  destruct (lookup key' STEPS) as [step |] eqn:Hk'; [| reflexivity].
  destruct (run step st) as [st1 r].
  destruct Hin as [-> | Hin]; [congruence |].
  now rewrite (IH Hin st1).
Qed.

(** C8, as amended.  A pipeline holding an id that is not a key of the
    catalog makes [runHash] fail, with the [TypeError] that calling [run]
    on the missing step raises: the code has no error of its own for an
    unknown step.  Nothing catches it: [runAvalanche] and the click
    handler end with the same exception. *)
Theorem unknown_step_throws (password salt : ustring) (steps : list string)
    (key : string) :
  In key steps ->
  lookup key STEPS = None ->
  runHash password salt steps = Throw TypeError /\
  runAvalanche password salt steps = Throw TypeError /\
  btn_run_click steps password salt = Ran (Throw TypeError).
Proof.
  intros Hin Hk.
  assert (Hrun : forall pw s, runHash pw s steps = Throw TypeError).
  { intros pw s. unfold runHash. now rewrite (run_steps_unknown key steps Hin Hk). }
  split; [apply Hrun |]. split.
  - unfold runAvalanche. now rewrite Hrun.
  - unfold btn_run_click.
    destruct steps as [| k steps']; [contradiction |].
    cbn [List.length]. rewrite Nat2Z.inj_succ.
    destruct (Z.eqb_spec (Z.succ (Z.of_nat (List.length steps'))) 0) as [H0 | _];
      [lia |].
    now rewrite Hrun.
Qed.

Lemma unknown_step_throws_witness :
  runHash (ustr "p") (ustr "s") ["charcode_sum"; "not_a_real_step"]%string
  = Throw TypeError /\
  runAvalanche (ustr "p") (ustr "s") ["charcode_sum"; "not_a_real_step"]%string
  = Throw TypeError /\
  btn_run_click ["charcode_sum"; "not_a_real_step"]%string (ustr "p") (ustr "s")
  = Ran (Throw TypeError).
Proof.
  apply (unknown_step_throws (ustr "p") (ustr "s")
           ["charcode_sum"; "not_a_real_step"]%string "not_a_real_step"%string).
  - simpl. right. left. reflexivity.
  - reflexivity.
Defined.

(** C8 as the claim states it fails: on the pipeline of the one id
    "not_a_real_step" the exception raised is named TypeError, and no
    exception named UnknownStepError comes out of [runHash]. *)
Lemma unknown_step_error_name :
  runHash (ustr "p") (ustr "s") ["not_a_real_step"%string] = Throw TypeError /\
  error_name TypeError = "TypeError"%string /\
  ~ (exists e,
        runHash (ustr "p") (ustr "s") ["not_a_real_step"%string] = Throw e /\
        error_name e = "UnknownStepError"%string).
Proof.
  split; [reflexivity |]. split; [reflexivity |].
  intros (e & _ & Hname). destruct e. discriminate Hname.
Qed.

(** ** The avalanche report on short passwords *)

Lemma differing_refl (a : string) : differing a a = 0.
Proof.
  induction a as [| x a IH]; [reflexivity |].
  cbn [differing]. now rewrite Ascii.eqb_refl, IH.
Qed.

Lemma countDifferentChars_refl (a : string) : countDifferentChars a a = 0.
Proof.
  unfold countDifferentChars. now rewrite differing_refl, Z.sub_diag.
Qed.

(** On a password of one code unit [c] and a valid pipeline,
    [runAvalanche] completes with its four rows; the three mutations flip
    the same character, so the three mutated passwords are the same
    one-unit string and their rows differ in the label only, none being
    dropped.  A zero-length password does not reach [runAvalanche]
    through the click handler, which runs on ['password'] when the field
    is empty. *)
Theorem avalanche_single_unit (c : Z) (salt : ustring) (steps : list string) :
  valid_pipeline steps ->
  let c' := JS.toUint16 (c + 1) in
  avalanche_tests [c]
  = Ok [ ("Original"%string, [c]);
         ("Flip 1st char"%string, [c']);
         ("Flip mid char"%string, [c']);
         ("Flip last char"%string, [c']) ] /\
  (exists r0 r1,
      runHash [c] salt steps = Ok r0 /\
      runHash [c'] salt steps = Ok r1 /\
      let base := finalHash r0 in
      let h := finalHash r1 in
      let d := countDifferentChars base h in
      runAvalanche [c] salt steps
      = Ok [ mkRow "Original" base 0 (slength base);
             mkRow "Flip 1st char" h d (slength base);
             mkRow "Flip mid char" h d (slength base);
             mkRow "Flip last char" h d (slength base) ]) /\
  btn_run_click steps [] salt = btn_run_click steps (ustr "password") salt.
Proof.
  intros Hv c'.
  assert (Htests : avalanche_tests [c]
                   = Ok [ ("Original"%string, [c]);
                          ("Flip 1st char"%string, [c']);
                          ("Flip mid char"%string, [c']);
                          ("Flip last char"%string, [c']) ]) by reflexivity.
  split; [exact Htests |]. split; [| reflexivity].
  destruct (runHash_valid [c] salt steps Hv) as (r0 & Hr0 & _).
  destruct (runHash_valid [c'] salt steps Hv) as (r1 & Hr1 & _).
  exists r0, r1. split; [exact Hr0 |]. split; [exact Hr1 |].
  cbv zeta. unfold runAvalanche.
  rewrite Hr0. cbn [bind]. rewrite Htests. cbn [bind avalanche_rows].
  rewrite Hr0, Hr1. cbn [bind].
  now rewrite countDifferentChars_refl.
Qed.

Lemma avalanche_single_unit_witness :
  exists rows,
    runAvalanche (ustr "a") (ustr "") ["charcode_sum"%string] = Ok rows /\
    List.length rows = 4%nat /\
    avalanche_tests (ustr "a")
    = Ok [ ("Original"%string, ustr "a");
           ("Flip 1st char"%string, ustr "b");
           ("Flip mid char"%string, ustr "b");
           ("Flip last char"%string, ustr "b") ].
Proof.
  destruct (avalanche_single_unit 97 (ustr "") ["charcode_sum"%string])
    as (Htests & (r0 & r1 & _ & _ & Hrows) & _).
  - repeat constructor. discriminate.
  - eexists. split; [exact Hrows |]. split; [reflexivity | exact Htests].
Defined.

(** On the zero-length password [flipChar] reads [arr[0]] of an empty
    array and raises, and so does [runAvalanche]. *)
Lemma avalanche_empty_password_throws :
  valid_pipeline ["charcode_sum"%string] /\
  flipChar (ustr "") 0 = Throw TypeError /\
  runAvalanche (ustr "") (ustr "") ["charcode_sum"%string] = Throw TypeError.
Proof.
  split; [repeat constructor; discriminate |].
  split; reflexivity.
Qed.

(** C7, at the password made of the one character U+1F600 (the surrogate
    pair D83D DE00) and the pipeline [charcode_sum].  The password is a
    single character of length 2; [runHash] returns on it, and the first
    mutation is made, but the middle and the last one index the
    one-element array of characters at position 1, counted in code units:
    [flipChar] raises a [TypeError], the report is not produced and the
    click on the run button ends with the exception. *)
Theorem avalanche_on_astral_password :
  let password := [55357; 56832] in
  let pipeline := ["charcode_sum"%string] in
  valid_pipeline pipeline /\
  chars password = [password] /\
  ulength password = 2 /\
  (exists r, runHash password (ustr "") pipeline = Ok r) /\
  flipChar password 0 = Ok [55358] /\
  flipChar password (ulength password / 2) = Throw TypeError /\
  flipChar password (ulength password - 1) = Throw TypeError /\
  runAvalanche password (ustr "") pipeline = Throw TypeError /\
  btn_run_click pipeline password (ustr "") = Ran (Throw TypeError).
Proof.
  intros password pipeline.
  split; [repeat constructor; discriminate |].
  split; [reflexivity |]. split; [reflexivity |].
  split; [eexists; reflexivity |].
  repeat split.
Qed.

(** * Further properties of the evaluator *)

(** ** The trace of a run *)

Lemma last_cons_default {A : Type} (x d : A) (l : list A) :
  last (x :: l) d = last l x.
Proof.
  revert x d. induction l as [| y l IH]; intros x d; [reflexivity |].
  change (last (x :: y :: l) d) with (last (y :: l) d).
  now rewrite (IH y d), (IH y x).
Qed.

Lemma step_res_val (key : string) (step : Step) (st : HashState) :
  lookup key STEPS = Some step ->
  res_val (snd (run step st)) = val (fst (run step st)).
Proof.
  intros Hk. apply lookup_In in Hk.
  pose proof catalog_res_val as Hall. rewrite Forall_forall in Hall.
  now apply Hall.
Qed.

(** A run that ends records one output and one trace entry per step, in
    order; the entries carry the step's label and the values returned,
    each the accumulator its step left, so the last one is the final
    accumulator. *)
Lemma run_steps_shape (steps : list string) :
  forall st st' outs tr,
    run_steps steps st = Ok (st', outs, tr) ->
    List.length outs = List.length steps /\
    List.length tr = List.length steps /\
    map trace_val tr = map res_val outs /\
    map trace_display tr = map display outs /\
    map (fun t => Some (trace_step t)) tr
    = map (fun key => option_map label (lookup key STEPS)) steps /\
    last (map res_val outs) (val st) = val st'.
Proof.
  induction steps as [| key steps IH]; intros st st' outs tr Hrun;
    cbn [run_steps] in Hrun.
  - injection Hrun as <- <- <-. repeat split.
  - destruct (lookup key STEPS) as [step |] eqn:Hk; [| discriminate].
    pose proof (step_res_val key step st Hk) as Hres.
    destruct (run step st) as [st1 r] eqn:Hr. cbn [fst snd] in Hres.
    destruct (run_steps steps st1) as [[[st2 outs2] tr2] | e] eqn:Hrest;
      cbn [bind] in Hrun; [| discriminate].
    injection Hrun as <- <- <-.
    destruct (IH st1 st2 outs2 tr2 Hrest) as (H1 & H2 & H3 & H4 & H5 & H6).
    cbn [List.length map trace_val trace_display trace_step].
    rewrite H1, H2, H3, H4, H5, Hk. cbn [option_map].
    repeat split.
    rewrite last_cons_default, Hres. exact H6.
Qed.

(** From an accumulator in [0, 2^32) every value a run returns is in
    [0, 2^32). *)
Lemma run_steps_values (steps : list string) :
  forall st st' outs tr,
    uint32 (val st) ->
    run_steps steps st = Ok (st', outs, tr) ->
    Forall (fun o => uint32 (res_val o)) outs.
Proof.
  induction steps as [| key steps IH]; intros st st' outs tr Hst Hrun;
    cbn [run_steps] in Hrun.
  - injection Hrun as _ <- _. constructor.
  - destruct (lookup key STEPS) as [step |] eqn:Hk; [| discriminate].
    pose proof (step_res_val key step st Hk) as Hres.
    pose proof (step_uint32 key step st Hk Hst) as Hst1.
    destruct (run step st) as [st1 r]. cbn [fst snd] in Hres, Hst1.
    destruct (run_steps steps st1) as [[[st2 outs2] tr2] | e] eqn:Hrest;
      cbn [bind] in Hrun; [| discriminate].
    injection Hrun as _ <- _.
    constructor; [now rewrite Hres | exact (IH st1 st2 outs2 tr2 Hst1 Hrest)].
Qed.

(** X1.  The result [runHash] returns has one trace entry and one step
    output per pipeline step, in pipeline order, labelled by the step's
    label; every value in the outputs and in the trace is an unsigned
    32-bit integer, and the last of them (the seed, for an empty
    pipeline) is the final accumulator. *)
Theorem runHash_trace (password salt : ustring) (steps : list string)
    (r : RunResult) :
  runHash password salt steps = Ok r ->
  List.length (trace r) = List.length steps /\
  List.length (stepOutputs r) = List.length steps /\
  map trace_val (trace r) = map res_val (stepOutputs r) /\
  map trace_display (trace r) = map display (stepOutputs r) /\
  map (fun t => Some (trace_step t)) (trace r)
  = map (fun key => option_map label (lookup key STEPS)) steps /\
  stateVal r = last (map res_val (stepOutputs r)) (seed password) /\
  0 <= stateVal r < 2 ^ 32 /\
  Forall (fun o => 0 <= res_val o < 2 ^ 32) (stepOutputs r) /\
  Forall (fun t => 0 <= trace_val t < 2 ^ 32) (trace r).
Proof.
  unfold runHash. set (st0 := set_val _ _).
  destruct (run_steps steps st0) as [[[st' outs] tr] | e] eqn:Hrun;
    cbn [bind]; [| discriminate].
  intros Hr. injection Hr as <-. cbn [trace stepOutputs stateVal].
  destruct (run_steps_shape steps st0 st' outs tr Hrun)
    as (H1 & H2 & H3 & H4 & H5 & H6).
  pose proof (run_steps_values steps st0 st' outs tr (seed_uint32 password) Hrun)
    as Hvals.
  repeat (split; [assumption |]). split; [symmetry; exact H6 |]. split.
  - apply (run_steps_uint32 steps st0 st' outs tr); [apply seed_uint32 | exact Hrun].
  - split; [exact Hvals |].
    apply Forall_map with (f := trace_val) (P := uint32).
    rewrite H3. apply Forall_map. exact Hvals.
Qed.

Lemma runHash_trace_witness :
  let r := mkRun "845f692c"
             [ mkTrace "∑ Char Code Sum" 149221787 None;
               mkTrace "P(x) Polynomial Rolling" 728085108 None;
               mkTrace "π Prime Multiply" 2220845356 None;
               mkTrace "🔡 Hex Encode" 2220845356 (Some "0x845f692c"%string) ]
             [ mkResult 149221787 None; mkResult 728085108 None;
               mkResult 2220845356 None;
               mkResult 2220845356 (Some "0x845f692c"%string) ]
             2220845356 in
  List.length (trace r) = 4%nat /\
  stateVal r = last (map res_val (stepOutputs r)) (seed (ustr "password")).
Proof.
  intros r.
  destruct (runHash_trace (ustr "password") (ustr "")
              ["charcode_sum"; "polynomial_roll"; "prime_multiply"; "hex_encode"]%string
              r) as (H1 & _ & _ & _ & _ & H6 & _).
  - reflexivity.
  - split; [exact H1 | exact H6].
Defined.

(** ** Composition and validity of pipelines *)

(** X2.  Steps run strictly in sequence: a pipeline [a ++ b] that gets
    through [a] runs [b] on the state [a] left, and its outputs and trace
    are those of [a] followed by those of [b]; if [a] raises, [b] is not
    run and the exception is that of [a]. *)
Theorem pipeline_composition (a b : list string) (st : HashState) :
  (forall e, run_steps a st = Throw e -> run_steps (a ++ b) st = Throw e) /\
  (forall st1 o1 t1,
      run_steps a st = Ok (st1, o1, t1) ->
      (forall e, run_steps b st1 = Throw e -> run_steps (a ++ b) st = Throw e) /\
      (forall st2 o2 t2,
          run_steps b st1 = Ok (st2, o2, t2) ->
          run_steps (a ++ b) st = Ok (st2, o1 ++ o2, t1 ++ t2))).
Proof.
  rewrite run_steps_app. split.
  - intros e Ha. now rewrite Ha.
  - intros st1 o1 t1 Ha. rewrite Ha. cbn [bind]. split.
    + intros e Hb. now rewrite Hb.
    + intros st2 o2 t2 Hb. now rewrite Hb.
Qed.

Lemma pipeline_composition_witness :
  let st := mkState (ustr "ab") 7 (ustr "") EmptyString in
  run_steps (["charcode_sum"%string] ++ ["modulo_trim"%string; "hex_encode"%string])%list st
  = Ok (mkState (ustr "ab") 202 (ustr "") "000000ca",
        [mkResult 202 None] ++ [mkResult 202 None; mkResult 202 (Some "0x000000ca"%string)],
        [mkTrace "∑ Char Code Sum" 202 None]
          ++ [mkTrace "% Modulo Trim" 202 None;
              mkTrace "🔡 Hex Encode" 202 (Some "0x000000ca"%string)]).
Proof.
  intros st.
  apply (proj2 (pipeline_composition ["charcode_sum"%string]
                  ["modulo_trim"; "hex_encode"]%string st)
           (mkState (ustr "ab") 202 (ustr "") EmptyString)); reflexivity.
Defined.

Lemma allHex_hex_encode (st : HashState) :
  uint32 (val st) -> allHex (hexStr st) = true ->
  allHex (hexStr (fst (Steps.hex_encode st))) = true.
Proof.
  intros Hv Hh. rewrite hex_encode_hexStr, allHex_append, Hh.
  rewrite padStart8_toString16 by exact Hv. apply allHex_fixedHex.
Qed.

(** Whatever a run appends to [hexStr] is made of hexadecimal digits. *)
Lemma run_steps_allHex (steps : list string) :
  forall st st' outs tr,
    uint32 (val st) -> allHex (hexStr st) = true ->
    run_steps steps st = Ok (st', outs, tr) ->
    allHex (hexStr st') = true.
Proof.
  induction steps as [| key steps IH]; intros st st' outs tr Hst Hh Hrun;
    cbn [run_steps] in Hrun.
  - injection Hrun as <- _ _. exact Hh.
  - destruct (lookup key STEPS) as [step |] eqn:Hk; [| discriminate].
    destruct (run step st) as [st1 r] eqn:Hr.
    destruct (run_steps steps st1) as [[[st2 outs2] tr2] | e] eqn:Hrest;
      cbn [bind] in Hrun; [| discriminate].
    injection Hrun as <- _ _.
    assert (H1 : st1 = fst (run step st)) by now rewrite Hr.
    apply (IH st1 st2 outs2 tr2); [| | exact Hrest].
    + rewrite H1. now apply (step_uint32 key).
    + rewrite H1. destruct (string_dec key "hex_encode") as [-> | Hne].
      * rewrite lookup_hex_encode in Hk. injection Hk as <-.
        now apply allHex_hex_encode.
      * now rewrite (step_hexStr key step st Hk Hne).
Qed.

Lemma valid_pipeline_dec (steps : list string) :
  valid_pipeline steps \/ exists key, In key steps /\ lookup key STEPS = None.
Proof.
  induction steps as [| key steps [IH | (k & Hin & Hk)]].
  - left. constructor.
  - destruct (lookup key STEPS) as [step |] eqn:Hk.
    + left. constructor; [congruence | exact IH].
    + right. exists key. split; [now left | exact Hk].
  - right. exists k. split; [now right | exact Hk].
Qed.

(** X3.  [runHash] returns a result exactly when every id of the pipeline
    is a key of the catalog, and raises a [TypeError] otherwise; no step
    of the catalog ever raises. *)
Theorem runHash_ok_iff_valid (password salt : ustring) (steps : list string) :
  ((exists r, runHash password salt steps = Ok r) <-> valid_pipeline steps) /\
  (runHash password salt steps = Throw TypeError <-> ~ valid_pipeline steps).
Proof.
  assert (Hok : valid_pipeline steps -> exists r, runHash password salt steps = Ok r).
  { intros Hv. destruct (runHash_valid password salt steps Hv) as (r & Hr & _).
    now exists r. }
  assert (Hbad : ~ valid_pipeline steps -> runHash password salt steps = Throw TypeError).
  { intros Hnv. destruct (valid_pipeline_dec steps) as [Hv | (k & Hin & Hk)];
      [contradiction |].
    unfold runHash. now rewrite (run_steps_unknown k steps Hin Hk). }
  split; split.
  - intros [r Hr]. destruct (valid_pipeline_dec steps) as [Hv | (k & Hin & Hk)];
      [exact Hv |].
    unfold runHash in Hr. rewrite (run_steps_unknown k steps Hin Hk) in Hr.
    discriminate.
  - exact Hok.
  - intros Ht Hv. destruct (Hok Hv) as [r Hr]. congruence.
  - exact Hbad.
Qed.

(** X4.  On a valid pipeline with [N >= 1] [hex_encode] steps the digest
    is a string of exactly [8 * N] lowercase hexadecimal digits. *)
Theorem hex_digest_shape (password salt : ustring) (steps : list string) :
  valid_pipeline steps ->
  (1 <= hex_steps steps)%nat ->
  exists r,
    runHash password salt steps = Ok r /\
    String.length (finalHash r) = (8 * hex_steps steps)%nat /\
    allHex (finalHash r) = true.
Proof.
  intros Hv HN.
  destruct (runHash_valid password salt steps Hv) as (r & Hr & _ & _ & Hlen).
  exists r. split; [exact Hr |]. split; [exact (Hlen HN) |].
  specialize (Hlen HN).
  unfold runHash in Hr. set (st0 := set_val _ _) in Hr.
  destruct (run_steps steps st0) as [[[st' outs] tr] | e] eqn:Hrun;
    cbn [bind] in Hr; [| discriminate].
  injection Hr as <-. cbn [finalHash] in *.
  pose proof (run_steps_allHex steps st0 st' outs tr (seed_uint32 password)
                eq_refl Hrun) as Hall.
  pose proof (run_steps_hexStr steps st0 st' outs tr (seed_uint32 password)
                Hrun) as Hh.
  change (hexStr st0) with EmptyString in Hh.
  destruct (hexStr st'); [cbn [String.length] in Hh; lia | exact Hall].
Qed.

Lemma hex_digest_shape_witness :
  exists r,
    runHash (ustr "password") (ustr "")
      ["charcode_sum"; "hex_encode"; "avalanche"; "hex_encode"]%string = Ok r /\
    String.length (finalHash r) = 16%nat /\
    allHex (finalHash r) = true.
Proof.
  apply (hex_digest_shape (ustr "password") (ustr "")
           ["charcode_sum"; "hex_encode"; "avalanche"; "hex_encode"]%string).
  - repeat constructor; discriminate.
  - vm_compute. lia.
Defined.

(** ** What the steps leave alone *)

Ltac keeps_text f :=
  intros; unfold f; cbv zeta;
  try (destruct (fold_left _ _ (_, _))); split; reflexivity.

(** No step writes to the input text or to the salt. *)
Lemma catalog_frame :
  Forall (fun step => forall st,
            str (fst (run step st)) = str st /\ salt (fst (run step st)) = salt st)
         (map snd STEPS).
Proof.
  unfold STEPS. cbn [map snd].
  repeat apply Forall_cons; try apply Forall_nil; intros st; cbn [run].
  - keeps_text Steps.charcode_sum.
  - keeps_text Steps.polynomial_roll.
  - keeps_text Steps.xor_fold.
  - keeps_text Steps.modular_exp.
  - keeps_text Steps.fibonacci_mix.
  - keeps_text Steps.prime_multiply.
  - keeps_text Steps.bit_rotate.
  - keeps_text Steps.ascii_square.
  - keeps_text Steps.avalanche.
  - keeps_text Steps.salt_inject.
  - keeps_text Steps.rounds.
  - keeps_text Steps.hex_encode.
  - keeps_text Steps.modulo_trim.
Qed.

Lemma step_frame (key : string) (step : Step) (st : HashState) :
  lookup key STEPS = Some step ->
  str (fst (run step st)) = str st /\ salt (fst (run step st)) = salt st.
Proof.
  intros Hk. apply lookup_In in Hk.
  pose proof catalog_frame as Hall. rewrite Forall_forall in Hall.
  now apply Hall.
Qed.

(** A run changes neither the input text nor the salt, and without a
    [hex_encode] step it leaves [hexStr] as it was. *)
Lemma run_steps_frame (steps : list string) :
  forall st st' outs tr,
    run_steps steps st = Ok (st', outs, tr) ->
    str st' = str st /\ salt st' = salt st /\
    (hex_steps steps = 0%nat -> hexStr st' = hexStr st).
Proof.
  unfold hex_steps.
  induction steps as [| key steps IH]; intros st st' outs tr Hrun;
    cbn [run_steps] in Hrun.
  - injection Hrun as <- _ _. repeat split.
  - destruct (lookup key STEPS) as [step |] eqn:Hk; [| discriminate].
    destruct (step_frame key step st Hk) as [Hs Hsalt].
    pose proof (step_hexStr key step st Hk) as Hhex.
    destruct (run step st) as [st1 r].
    destruct (run_steps steps st1) as [[[st2 outs2] tr2] | e] eqn:Hrest;
      cbn [bind] in Hrun; [| discriminate].
    injection Hrun as <- _ _. cbn [fst] in *.
    destruct (IH st1 st2 outs2 tr2 Hrest) as (H1 & H2 & H3).
    split; [congruence |]. split; [congruence |].
    cbn [count_occ]. destruct (string_dec key "hex_encode") as [-> | Hne].
    + destruct (string_dec "hex_encode" "hex_encode"); [discriminate | contradiction].
    + destruct (string_dec "hex_encode" key) as [Heq | _]; [now symmetry in Heq |].
      intros H0. rewrite (H3 H0). now apply Hhex.
Qed.

(** ** Polynomial rolling *)

Lemma charCodes_In_upto (n : nat) :
  forall s, (List.length s <= n)%nat -> forall c, In c (charCodes s) -> In c s.
Proof.
  unfold charCodes.
  induction n as [| n IH]; intros s Hn c Hc.
  - destruct s; [contradiction | cbn in Hn; lia].
  - destruct s as [| u rest]; [contradiction |].
    cbn [chars] in Hc. destruct rest as [| l rest'].
    + destruct Hc as [<- | []]. now left.
    + destruct (isLeadingSurrogate u && isTrailingSurrogate l).
      * destruct Hc as [<- | Hc]; [now left |].
        right. right. apply (IH rest'); [cbn in Hn |- *; lia | exact Hc].
      * destruct Hc as [<- | Hc]; [now left |].
        right. apply (IH (l :: rest')); [cbn in Hn |- *; lia | exact Hc].
Qed.

(** Every char code a loop reads is a code unit of the string. *)
Lemma charCodes_In (s : ustring) : forall c, In c (charCodes s) -> In c s.
Proof. exact (charCodes_In_upto (List.length s) s (Nat.le_refl _)). Qed.

Lemma charCodes_wf (s : ustring) : wf_ustring s -> wf_ustring (charCodes s).
Proof.
  unfold wf_ustring. rewrite !Forall_forall. intros Hs c Hc.
  apply Hs, charCodes_In, Hc.
Qed.

Lemma roll_loop_sum (cs : list Z) :
  Forall (fun c => 0 <= c) cs ->
  forall h p,
    0 <= h < 1000000007 -> 0 <= p ->
    0 <= fst (roll_loop cs (h, p)) < 1000000007 /\
    fst (roll_loop cs (h, p)) = (h + p * poly_sum cs 0) mod 1000000007.
Proof.
  unfold roll_loop.
  induction cs as [| c cs IH]; intros Hcs h p Hh Hp; cbn [fold_left poly_sum fst].
  - split; [exact Hh |]. rewrite Z.mul_0_r, Z.add_0_r.
    symmetry. now apply Z.mod_small.
  - inversion Hcs as [| ? ? Hc Hrest]; subst.
    rewrite !(rem_nonneg 1000000007) by nia.
    assert (Hh' : 0 <= (h + c * p) mod 1000000007 < 1000000007)
      by (apply Z.mod_pos_bound; reflexivity).
    assert (Hp' : 0 <= (p * 31) mod 1000000007)
      by (apply Z.mod_pos_bound; reflexivity).
    destruct (IH Hrest _ _ Hh' Hp') as [Hr Heq].
    split; [exact Hr |]. rewrite Heq, poly_sum_shift.
    rewrite Z.add_mod by discriminate.
    rewrite Z.mod_mod by discriminate.
    rewrite Z.mul_mod_idemp_l by discriminate.
    rewrite <- Z.add_mod by discriminate.
    f_equal. change (Z.of_nat 0) with 0. ring.
Qed.

Lemma polynomial_roll_text (a b : HashState) :
  str a = str b -> salt a = salt b -> hexStr a = hexStr b ->
  Steps.polynomial_roll a = Steps.polynomial_roll b.
Proof.
  intros Hs Hsalt Hh. unfold Steps.polynomial_roll. cbv zeta. rewrite Hs.
  destruct (fold_left _ _ (_, _)) as [h p].
  unfold store, set_val. now rewrite Hs, Hsalt, Hh.
Qed.

(** X5.  [polynomial_roll] replaces the accumulator by the polynomial
    hash of the input text, the sum of [c_i * 31 ^ i] modulo 10^9 + 7
    over the char codes the loop reads (the modulus is the constant
    [M = 1_000_000_007] of the code, not the 10^9 + 9 of its caption),
    and does not read the accumulator it replaces. *)
Theorem polynomial_roll_spec (st : HashState) :
  wf_ustring (str st) ->
  val (fst (Steps.polynomial_roll st))
  = poly_sum (charCodes (str st)) 0 mod 1000000007 /\
  (forall v, val (fst (Steps.polynomial_roll (set_val st v)))
             = val (fst (Steps.polynomial_roll st))).
Proof.
  intros Hwf. split.
  - unfold Steps.polynomial_roll. cbv zeta.
    assert (Hcs : Forall (fun c => 0 <= c) (charCodes (str st))).
    { apply charCodes_wf in Hwf. unfold wf_ustring in Hwf.
      rewrite Forall_forall in *. intros c Hc. specialize (Hwf c Hc). lia. }
    destruct (roll_loop_sum (charCodes (str st)) Hcs 0 1) as [Hr Heq];
      [lia | lia |].
    unfold roll_loop in Hr, Heq.
    destruct (fold_left _ _ (_, _)) as [h p]. cbn [fst] in Hr, Heq.
    rewrite store_val, JSFacts.ushr_0, JSFacts.toUint32_small
      by (unfold JS.two32; lia).
    rewrite Heq. f_equal. ring.
  - intros v. now rewrite (polynomial_roll_text (set_val st v) st).
Qed.

Lemma polynomial_roll_spec_witness :
  let st := mkState (ustr "ab") 12345 (ustr "") EmptyString in
  val (fst (Steps.polynomial_roll st)) = (97 + 98 * 31) mod 1000000007.
Proof.
  intros st.
  refine (proj1 (polynomial_roll_spec st _)).
  repeat constructor; cbn; lia.
Defined.

Lemma lookup_polynomial_roll :
  lookup "polynomial_roll" STEPS
  = Some (mkStep "P(x) Polynomial Rolling" Steps.polynomial_roll).
Proof. reflexivity. Qed.

(** The state after [polynomial_roll] does not depend on what ran before
    it, short of a [hex_encode]. *)
Lemma polynomial_roll_text_prefix (password salt : ustring)
    (pre post : list string) (r : RunResult) :
  hex_steps pre = 0%nat ->
  runHash password salt (pre ++ "polynomial_roll"%string :: post) = Ok r ->
  exists r',
    runHash password salt ("polynomial_roll"%string :: post) = Ok r' /\
    finalHash r' = finalHash r /\
    stateVal r' = stateVal r.
Proof.
  intros Hpre. unfold runHash. set (st0 := set_val _ _).
  rewrite run_steps_app.
  destruct (run_steps pre st0) as [[[st1 o1] t1] | e] eqn:Hrun1;
    cbn [bind]; [| discriminate].
  destruct (run_steps_frame pre st0 st1 o1 t1 Hrun1) as (Hs & Hsalt & Hh).
  specialize (Hh Hpre).
  cbn [run_steps]. rewrite lookup_polynomial_roll. cbn [run].
  rewrite (polynomial_roll_text st1 st0 Hs Hsalt Hh).
  destruct (Steps.polynomial_roll st0) as [st2 r2].
  destruct (run_steps post st2) as [[[st3 o3] t3] | e]; cbn [bind];
    [| discriminate].
  intros Hr. injection Hr as <-.
  eexists. split; [reflexivity |]. split; reflexivity.
Qed.

(** X6.  Whatever runs before a [polynomial_roll] step, short of a
    [hex_encode], has no effect on the digest: the pipeline cut at that
    step gives the same final accumulator and the same digest.  The seed
    and an earlier [salt_inject], as in the [secure] preset, are
    overwritten. *)
Theorem polynomial_roll_erases_prefix (password salt : ustring)
    (pre post : list string) (r : RunResult) :
  hex_steps pre = 0%nat ->
  runHash password salt (pre ++ "polynomial_roll"%string :: post) = Ok r ->
  exists r',
    runHash password salt ("polynomial_roll"%string :: post) = Ok r' /\
    finalHash r' = finalHash r /\
    stateVal r' = stateVal r.
Proof. exact (polynomial_roll_text_prefix password salt pre post r). Qed.

Lemma polynomial_roll_erases_prefix_witness :
  exists r',
    runHash (ustr "password") (ustr "pepper")
      ["polynomial_roll"; "avalanche"; "hex_encode"]%string = Ok r' /\
    finalHash r' = "24344ad1"%string /\
    stateVal r' = 607406801.
Proof.
  apply (polynomial_roll_erases_prefix (ustr "password") (ustr "pepper")
           ["salt_inject"; "bit_rotate"]%string ["avalanche"; "hex_encode"]%string
           (mkRun "24344ad1"
              [ mkTrace "💊 Salt Injection" 3232282998 None;
                mkTrace "↻ Bit Rotation" 388945941 None;
                mkTrace "P(x) Polynomial Rolling" 618489285 None;
                mkTrace "⚡ Avalanche Diffusion" 607406801 None;
                mkTrace "🔡 Hex Encode" 607406801 (Some "0x24344ad1"%string) ]
              [ mkResult 3232282998 None; mkResult 388945941 None;
                mkResult 618489285 None; mkResult 607406801 None;
                mkResult 607406801 (Some "0x24344ad1"%string) ]
              607406801)).
  - reflexivity.
  - reflexivity.
Defined.

(** ** The steps that read the input text *)

Lemma fold_left_add (cs : list Z) :
  forall v, fold_left (fun v c => v + c) cs v = v + zsum cs.
Proof.
  induction cs as [| c cs IH]; intros v; cbn [fold_left zsum fold_right].
  - ring.
  - rewrite IH. unfold zsum. ring.
Qed.

Lemma fold_left_bxor (cs : list Z) :
  forall v,
    JS.toUint32 (fold_left (fun v c => JS.bxor v c) cs v)
    = Z.lxor (JS.toUint32 v) (zxor (map JS.toUint32 cs)).
Proof.
  induction cs as [| c cs IH]; intros v; cbn [fold_left zxor fold_right map].
  - now rewrite Z.lxor_0_r.
  - rewrite IH, JSFacts.toUint32_bxor. unfold zxor. apply Z.lxor_assoc.
Qed.

Lemma fold_left_squares (cs : list Z) :
  forall v,
    0 <= v < 2 ^ 32 ->
    fold_left (fun v code => JS.rem (v + code * code) (2 ^ 32)) cs v
    = (v + zsum (map (fun c => c * c) cs)) mod 2 ^ 32.
Proof.
  induction cs as [| c cs IH]; intros v Hv; cbn [fold_left zsum fold_right map].
  - rewrite Z.add_0_r. symmetry. now apply Z.mod_small.
  - rewrite (rem_nonneg (2 ^ 32)) by (reflexivity || nia).
    rewrite IH by (apply Z.mod_pos_bound; reflexivity).
    rewrite Z.add_mod_idemp_l by discriminate.
    f_equal. unfold zsum. ring.
Qed.

Lemma zsum_perm (a b : list Z) : Permutation a b -> zsum a = zsum b.
Proof.
  unfold zsum. induction 1; cbn [fold_right]; lia.
Qed.

Lemma zxor_perm (a b : list Z) : Permutation a b -> zxor a = zxor b.
Proof.
  unfold zxor. induction 1; cbn [fold_right].
  - reflexivity.
  - now f_equal.
  - rewrite <- !Z.lxor_assoc. f_equal. apply Z.lxor_comm.
  - congruence.
Qed.

Lemma xor_fold_state (st : HashState) :
  fst (Steps.xor_fold st)
  = set_val st (Z.lxor (val st mod 2 ^ 32)
                  (zxor (map (fun c => c mod 2 ^ 32) (charCodes (str st))))).
Proof.
  unfold Steps.xor_fold. cbv zeta. unfold store. cbn [fst]. f_equal.
  rewrite JSFacts.ushr_0, fold_left_bxor. reflexivity.
Qed.

(** The closed forms of the three text steps. *)
Lemma text_steps_val (st : HashState) :
  let cs := charCodes (str st) in
  val (fst (Steps.charcode_sum st)) = (val st + zsum cs) mod 2 ^ 32 /\
  val (fst (Steps.ascii_square st))
  = (val st + zsum (map (fun c => c * c) cs)) mod 2 ^ 32 /\
  val (fst (Steps.xor_fold st))
  = Z.lxor (val st mod 2 ^ 32) (zxor (map (fun c => c mod 2 ^ 32) cs)).
Proof.
  intros cs. split; [| split].
  - unfold Steps.charcode_sum. cbv zeta.
    rewrite store_val, JSFacts.ushr_0, fold_left_add. reflexivity.
  - unfold Steps.ascii_square. cbv zeta.
    rewrite store_val, JSFacts.ushr_0, fold_left_squares by (split; [lia | reflexivity]).
    unfold JS.toUint32. change JS.two32 with (2 ^ 32).
    rewrite Z.add_0_l, Z.add_mod_idemp_r by discriminate. reflexivity.
  - now rewrite xor_fold_state.
Qed.

(** X7.  The three text steps in closed form, on an accumulator in
    [0, 2^32): [charcode_sum] adds the sum of the char codes to the
    accumulator and [ascii_square] the sum of their squares, both modulo
    2^32, and [xor_fold] XORs the accumulator with the XOR of the char
    codes, each taken modulo 2^32. *)
Theorem text_steps_closed_form (st : HashState) :
  0 <= val st < 2 ^ 32 ->
  let cs := charCodes (str st) in
  val (fst (Steps.charcode_sum st)) = (val st + zsum cs) mod 2 ^ 32 /\
  val (fst (Steps.ascii_square st))
  = (val st + zsum (map (fun c => c * c) cs)) mod 2 ^ 32 /\
  val (fst (Steps.xor_fold st))
  = Z.lxor (val st) (zxor (map (fun c => c mod 2 ^ 32) cs)).
Proof.
  intros Hst cs.
  destruct (text_steps_val st) as (H1 & H2 & H3). cbv zeta in H1, H2, H3.
  fold cs in H1, H2, H3.
  rewrite (Z.mod_small (val st)) in H3 by exact Hst.
  split; [exact H1 |]. split; [exact H2 | exact H3].
Qed.

Lemma text_steps_closed_form_witness :
  let st := mkState (ustr "ab") 4294967295 (ustr "") EmptyString in
  val (fst (Steps.charcode_sum st)) = 194 /\
  val (fst (Steps.ascii_square st)) = 19012 /\
  val (fst (Steps.xor_fold st)) = 4294967292.
Proof.
  intros st.
  destruct (text_steps_closed_form st) as (H1 & H2 & H3).
  - cbn. lia.
  - split; [exact H1 |]. split; [exact H2 | exact H3].
Defined.

(** X8.  [xor_fold] is its own inverse: run twice in a row on an
    accumulator in [0, 2^32) it gives the accumulator back. *)
Theorem xor_fold_involution (st : HashState) :
  0 <= val st < 2 ^ 32 ->
  fst (Steps.xor_fold (fst (Steps.xor_fold st))) = st.
Proof.
  intros Hst.
  rewrite (xor_fold_state (fst (Steps.xor_fold st))), (xor_fold_state st).
  cbn [str val set_val salt hexStr].
  set (x := zxor _).
  assert (Hx : uint32 (Z.lxor (val st mod 2 ^ 32) x)).
  { apply MixFacts.lxor_uint32.
    - apply Z.mod_pos_bound. reflexivity.
    - subst x. generalize (charCodes (str st)). intros cs.
      induction cs as [| c cs IH]; cbn [map zxor fold_right].
      + split; [lia | reflexivity].
      + apply MixFacts.lxor_uint32; [apply Z.mod_pos_bound; reflexivity | exact IH]. }
  rewrite (Z.mod_small (Z.lxor _ _)) by exact Hx.
  rewrite Z.lxor_assoc, Z.lxor_nilpotent, Z.lxor_0_r.
  rewrite Z.mod_small by exact Hst.
  destruct st; reflexivity.
Qed.

Lemma xor_fold_involution_witness :
  let st := mkState (ustr "password") 3735928559 (ustr "") EmptyString in
  fst (Steps.xor_fold (fst (Steps.xor_fold st))) = st.
Proof.
  intros st. apply xor_fold_involution. cbn. lia.
Defined.

(** ** Anagrams *)

Lemma store_anagram (a b : HashState) (v : Z) :
  anagram_states a b ->
  snd (store a v) = snd (store b v) /\
  anagram_states (fst (store a v)) (fst (store b v)).
Proof.
  intros (Hv & Hs & Hh & Hp). split; [reflexivity |].
  unfold anagram_states, store, set_val. cbn [fst val salt hexStr str].
  repeat split; assumption.
Qed.

Ltac val_only f :=
  intros a b Hab; pose proof Hab as (Hv & Hs & Hh & Hp);
  unfold f; cbv zeta; rewrite ?Hv, ?Hs;
  try (destruct (fold_left _ _ (_, _)));
  apply store_anagram; exact Hab.

Lemma charcode_sum_anagram : keeps_anagrams Steps.charcode_sum.
Proof.
  intros a b Hab. pose proof Hab as (Hv & Hs & Hh & Hp).
  unfold Steps.charcode_sum. cbv zeta.
  rewrite !fold_left_add, (zsum_perm _ _ Hp), Hv.
  now apply store_anagram.
Qed.

Lemma ascii_square_anagram : keeps_anagrams Steps.ascii_square.
Proof.
  intros a b Hab. pose proof Hab as (Hv & Hs & Hh & Hp).
  unfold Steps.ascii_square. cbv zeta.
  rewrite !fold_left_squares by (split; [lia | reflexivity]).
  rewrite (zsum_perm _ _ (Permutation_map (fun c => c * c) Hp)), Hv.
  now apply store_anagram.
Qed.

Lemma xor_fold_anagram : keeps_anagrams Steps.xor_fold.
Proof.
  intros a b Hab. pose proof Hab as (Hv & Hs & Hh & Hp).
  unfold Steps.xor_fold. cbv zeta.
  rewrite !JSFacts.ushr_0, !fold_left_bxor.
  rewrite (zxor_perm _ _ (Permutation_map JS.toUint32 Hp)), Hv.
  now apply store_anagram.
Qed.

Lemma hex_encode_anagram : keeps_anagrams Steps.hex_encode.
Proof.
  intros a b Hab. pose proof Hab as (Hv & Hs & Hh & Hp).
  unfold Steps.hex_encode. cbv zeta. cbn [fst snd]. rewrite Hv, Hh.
  split; [reflexivity |].
  unfold anagram_states, set_hexStr. cbn [val salt hexStr str].
  repeat split; assumption.
Qed.

(** Every step but [polynomial_roll] is blind to the order of the
    characters. *)
Lemma catalog_anagram :
  Forall (fun '(k, s) => k <> "polynomial_roll"%string -> keeps_anagrams (run s))
         STEPS.
Proof.
  unfold STEPS.
  repeat apply Forall_cons; try apply Forall_nil; intros Hk; cbn [run].
  - apply charcode_sum_anagram.
  - contradiction.
  - apply xor_fold_anagram.
  - val_only Steps.modular_exp.
  - val_only Steps.fibonacci_mix.
  - val_only Steps.prime_multiply.
  - val_only Steps.bit_rotate.
  - apply ascii_square_anagram.
  - val_only Steps.avalanche.
  - val_only Steps.salt_inject.
  - val_only Steps.rounds.
  - apply hex_encode_anagram.
  - val_only Steps.modulo_trim.
Qed.

Lemma run_steps_anagram (steps : list string) :
  ~ In "polynomial_roll"%string steps ->
  forall a b, anagram_states a b ->
    match run_steps steps a, run_steps steps b with
    | Ok (a', o, t), Ok (b', o', t') => o = o' /\ t = t' /\ anagram_states a' b'
    | Throw e, Throw e' => e = e'
    | _, _ => False
    end.
Proof.
  induction steps as [| key steps IH]; intros Hno a b Hab; cbn [run_steps].
  - split; [reflexivity | split; [reflexivity | exact Hab]].
  - destruct (lookup key STEPS) as [step |] eqn:Hk; [| reflexivity].
    assert (Hkeep : keeps_anagrams (run step)).
    { apply lookup_In_pair in Hk.
      pose proof catalog_anagram as Hall. rewrite Forall_forall in Hall.
      apply (Hall _ Hk). intros ->. apply Hno. now left. }
    destruct (Hkeep a b Hab) as [Hres Hst].
    destruct (run step a) as [a1 ra]. destruct (run step b) as [b1 rb].
    cbn [fst snd] in Hres, Hst. subst rb.
    assert (Hno' : ~ In "polynomial_roll"%string steps)
      by (intros Hin; apply Hno; now right).
    specialize (IH Hno' a1 b1 Hst).
    destruct (run_steps steps a1) as [[[a2 oa] ta] | ea];
      destruct (run_steps steps b1) as [[[b2 ob] tb] | eb]; cbn [bind];
      try contradiction.
    + destruct IH as (-> & -> & Hst2).
      split; [reflexivity | split; [reflexivity | exact Hst2]].
    + exact IH.
Qed.

Lemma charCodes_app_bmp (p s : ustring) :
  Forall (fun u => isLeadingSurrogate u = false) p ->
  charCodes (p ++ s) = p ++ charCodes s.
Proof.
  unfold charCodes. induction p as [| u rest IH]; intros Hp; [reflexivity |].
  inversion Hp as [| ? ? Hu Hrest]; subst.
  specialize (IH Hrest).
  cbn [app chars]. destruct (rest ++ s) as [| l t] eqn:Hrs.
  - cbn [map charCodeAt0 hd]. now rewrite <- IH.
  - rewrite Hu. cbn [andb map charCodeAt0 hd]. now rewrite IH.
Qed.

(** X9.  Anagrams collide.  Two passwords that are permutations of each
    other and hold no leading-surrogate code unit (D800 to DBFF) get the
    very same result from [runHash], trace included, on every pipeline
    that has no [polynomial_roll] step, and so on the [simple] preset,
    whatever the salt. *)
Theorem anagrams_collide (p1 p2 salt : ustring) (steps : list string) :
  Permutation p1 p2 ->
  Forall (fun u => isLeadingSurrogate u = false) p1 ->
  ~ In "polynomial_roll"%string steps ->
  runHash p1 salt steps = runHash p2 salt steps.
Proof.
  intros Hperm Hbmp Hno. unfold runHash.
  assert (Hbmp2 : Forall (fun u => isLeadingSurrogate u = false) p2)
    by (eapply Permutation_Forall; eassumption).
  assert (Hseed : seed p1 = seed p2)
    by (unfold seed, ulength; now rewrite (Permutation_length Hperm)).
  rewrite Hseed.
  set (a := set_val (mkState (p1 ++ salt) 0 salt EmptyString) (seed p2)).
  set (b := set_val (mkState (p2 ++ salt) 0 salt EmptyString) (seed p2)).
  assert (Hab : anagram_states a b).
  { repeat split.
    change (Permutation (charCodes (p1 ++ salt)) (charCodes (p2 ++ salt))).
    rewrite !charCodes_app_bmp by assumption.
    now apply Permutation_app_tail. }
  pose proof (run_steps_anagram steps Hno a b Hab) as H.
  destruct (run_steps steps a) as [[[a' oa] ta] | ea];
    destruct (run_steps steps b) as [[[b' ob] tb] | eb]; cbn [bind];
    try contradiction.
  - destruct H as (-> & -> & (Hv & _ & Hh & _)). now rewrite Hv, Hh.
  - now subst.
Qed.

Lemma anagrams_collide_witness :
  runHash (ustr "listen") (ustr "") ["charcode_sum"; "xor_fold"; "hex_encode"]%string
  = runHash (ustr "silent") (ustr "") ["charcode_sum"; "xor_fold"; "hex_encode"]%string.
Proof.
  apply anagrams_collide.
  - change (ustr "listen") with [108; 105; 115; 116; 101; 110].
    change (ustr "silent") with [115; 105; 108; 101; 110; 116].
    apply Permutation_trans with [105; 108; 115; 116; 101; 110];
      [apply perm_swap |].
    apply Permutation_trans with [105; 115; 108; 116; 101; 110];
      [apply perm_skip, perm_swap |].
    apply Permutation_trans with [115; 105; 108; 116; 101; 110];
      [apply perm_swap |].
    do 3 apply perm_skip.
    apply Permutation_trans with [101; 116; 110];
      [apply perm_swap | apply perm_skip, perm_swap].
  - repeat constructor.
  - cbn. intros [H | [H | [H | []]]]; discriminate.
Defined.

(** ** Steps that lose no information *)

(** Multiplication modulo 2^32 by a constant that has an inverse. *)
Lemma mul_mod32_inj (c c' a b : Z) :
  (c * c') mod 2 ^ 32 = 1 ->
  uint32 a -> uint32 b ->
  (a * c) mod 2 ^ 32 = (b * c) mod 2 ^ 32 -> a = b.
Proof.
  intros Hinv Ha Hb Heq.
  assert (Hback : forall x, uint32 x -> x = ((x * c) mod 2 ^ 32 * c') mod 2 ^ 32).
  { intros x Hx. rewrite Z.mul_mod_idemp_l by discriminate.
    rewrite <- Z.mul_assoc, <- Z.mul_mod_idemp_r, Hinv by discriminate.
    rewrite Z.mul_1_r. symmetry. now apply Z.mod_small. }
  rewrite (Hback a Ha), (Hback b Hb). now rewrite Heq.
Qed.

(** [h ^ (h >> n)] determines [h], bit by bit from the top. *)
Lemma xorshift_inj (n a b : Z) :
  1 <= n -> uint32 a -> uint32 b ->
  Z.lxor a (Z.shiftr a n) = Z.lxor b (Z.shiftr b n) -> a = b.
Proof.
  intros Hn Ha Hb Heq.
  assert (Hbits : forall k : nat, forall i, 32 - Z.of_nat k <= i ->
                    Z.testbit a i = Z.testbit b i).
  { induction k as [| k IH]; intros i Hi.
    - now rewrite !uint32_testbit_high by (assumption || lia).
    - destruct (Z.lt_ge_cases i 0) as [Hneg | Hpos].
      + now rewrite !Z.testbit_neg_r.
      + assert (Hx : Z.testbit (Z.lxor a (Z.shiftr a n)) i
                     = Z.testbit (Z.lxor b (Z.shiftr b n)) i) by now rewrite Heq.
        rewrite !Z.lxor_spec, !Z.shiftr_spec in Hx by exact Hpos.
        rewrite (IH (i + n)) in Hx by lia.
        destruct (Z.testbit a i), (Z.testbit b i), (Z.testbit b (i + n));
          simpl in Hx; congruence. }
  apply uint32_eq_bits; [exact Ha | exact Hb |].
  intros i Hi. apply (Hbits 32%nat). lia.
Qed.

Lemma xorshift_uint32 (n h : Z) :
  0 <= n -> uint32 h -> uint32 (Z.lxor h (Z.shiftr h n)).
Proof.
  intros Hn Hh. apply MixFacts.lxor_uint32; [exact Hh |].
  now apply MixFacts.shiftr_uint32.
Qed.

Lemma mod32_uint32 (x : Z) : uint32 (x mod 2 ^ 32).
Proof. apply Z.mod_pos_bound. reflexivity. Qed.

(** The finalize formula is one-to-one on 32-bit words. *)
Lemma fmix32_inj (a b : Z) :
  uint32 a -> uint32 b -> fmix32 a = fmix32 b -> a = b.
Proof.
  intros Ha Hb. unfold fmix32. cbv zeta. intros H.
  apply xorshift_inj in H; [| lia | apply mod32_uint32 | apply mod32_uint32].
  apply (mul_mod32_inj 0xc2b2ae35 2127672349) in H;
    [| reflexivity | apply xorshift_uint32; [lia | apply mod32_uint32]
     | apply xorshift_uint32; [lia | apply mod32_uint32]].
  apply xorshift_inj in H; [| lia | apply mod32_uint32 | apply mod32_uint32].
  apply (mul_mod32_inj 0x85ebca6b 2781581891) in H;
    [| reflexivity | now apply xorshift_uint32 | now apply xorshift_uint32].
  now apply xorshift_inj in H.
Qed.

Lemma iter_fmix32_uint32 (n : nat) (h : Z) : uint32 h -> uint32 (Nat.iter n fmix32 h).
Proof.
  intros Hh. destruct n; [exact Hh |].
  rewrite Nat.iter_succ. apply MixFacts.fmix32_uint32.
Qed.

Lemma iter_fmix32_inj (n : nat) (a b : Z) :
  uint32 a -> uint32 b -> Nat.iter n fmix32 a = Nat.iter n fmix32 b -> a = b.
Proof.
  intros Ha Hb. induction n as [| n IH]; [trivial |].
  rewrite !Nat.iter_succ. intros H. apply IH.
  apply fmix32_inj; [now apply iter_fmix32_uint32 .. | exact H].
Qed.

Lemma rotl13_iter32 (h : Z) : uint32 h -> Nat.iter 32 rotl13 h = h.
Proof.
  intros Hh. apply uint32_eq_bits; [now apply iter_rotl13_uint32 | exact Hh |].
  intros i Hi. rewrite iter_rotl13_testbit by assumption.
  f_equal. symmetry. apply (Z.mod_unique _ 32 (-13)); lia.
Qed.

Lemma rotl13_inj (a b : Z) : uint32 a -> uint32 b -> rotl13 a = rotl13 b -> a = b.
Proof.
  intros Ha Hb H.
  rewrite <- (rotl13_iter32 a Ha), <- (rotl13_iter32 b Hb).
  change 32%nat with (S 31). rewrite !Nat.iter_succ_r. now rewrite H.
Qed.

(** The two multiplication steps in closed form. *)
Lemma multiply_steps_val (st : HashState) :
  uint32 (val st) ->
  val (fst (Steps.fibonacci_mix st)) = (val st * 2654435769) mod 2 ^ 32 /\
  val (fst (Steps.prime_multiply st)) = (val st * 1000000007) mod 2 ^ 32.
Proof.
  intros [H0 H1]. unfold Steps.fibonacci_mix, Steps.prime_multiply. cbv zeta.
  rewrite !store_val, !JSFacts.ushr_0.
  rewrite !(rem_nonneg (2 ^ 32)) by (reflexivity || nia).
  split; apply JSFacts.toUint32_small, mod32_uint32.
Qed.

Lemma add_mod32_inj (k a b : Z) :
  uint32 a -> uint32 b ->
  (a + k) mod 2 ^ 32 = (b + k) mod 2 ^ 32 -> a = b.
Proof.
  intros Ha Hb Heq.
  assert (Hback : forall x, uint32 x -> x = ((x + k) mod 2 ^ 32 - k) mod 2 ^ 32).
  { intros x Hx. rewrite Zminus_mod_idemp_l.
    replace (x + k - k) with x by ring. symmetry. now apply Z.mod_small. }
  rewrite (Hback a Ha), (Hback b Hb). now rewrite Heq.
Qed.

Lemma lxor_inj_l (x a b : Z) : Z.lxor a x = Z.lxor b x -> a = b.
Proof.
  intros H.
  rewrite <- (Z.lxor_0_r a), <- (Z.lxor_0_r b), <- (Z.lxor_nilpotent x).
  now rewrite <- !Z.lxor_assoc, H.
Qed.

(** X10.  Nine steps are one-to-one on the accumulator.  On two states
    with accumulators in [0, 2^32): if [fibonacci_mix], [prime_multiply],
    [bit_rotate], [avalanche] or [rounds] leaves them equal accumulators
    they had equal accumulators; the same holds of [charcode_sum],
    [xor_fold] and [ascii_square] when the two states share the input
    text, and of [salt_inject] when they share the salt. *)
Theorem mixing_steps_injective (a b : HashState) :
  0 <= val a < 2 ^ 32 ->
  0 <= val b < 2 ^ 32 ->
  (val (fst (Steps.fibonacci_mix a)) = val (fst (Steps.fibonacci_mix b)) ->
   val a = val b) /\
  (val (fst (Steps.prime_multiply a)) = val (fst (Steps.prime_multiply b)) ->
   val a = val b) /\
  (val (fst (Steps.bit_rotate a)) = val (fst (Steps.bit_rotate b)) ->
   val a = val b) /\
  (val (fst (Steps.avalanche a)) = val (fst (Steps.avalanche b)) ->
   val a = val b) /\
  (val (fst (Steps.rounds a)) = val (fst (Steps.rounds b)) -> val a = val b) /\
  (str a = str b ->
   (val (fst (Steps.charcode_sum a)) = val (fst (Steps.charcode_sum b)) ->
    val a = val b) /\
   (val (fst (Steps.xor_fold a)) = val (fst (Steps.xor_fold b)) ->
    val a = val b) /\
   (val (fst (Steps.ascii_square a)) = val (fst (Steps.ascii_square b)) ->
    val a = val b)) /\
  (salt a = salt b ->
   val (fst (Steps.salt_inject a)) = val (fst (Steps.salt_inject b)) ->
   val a = val b).
Proof.
  intros Ha Hb.
  destruct (multiply_steps_val a Ha) as [Hfa Hpa].
  destruct (multiply_steps_val b Hb) as [Hfb Hpb].
  destruct (text_steps_val a) as (Hca & Hqa & _).
  destruct (text_steps_val b) as (Hcb & Hqb & _).
  cbv zeta in Hca, Hcb, Hqa, Hqb.
  split; [| split; [| split; [| split; [| split; [| split]]]]].
  - rewrite Hfa, Hfb. now apply (mul_mod32_inj 2654435769 340573321).
  - rewrite Hpa, Hpb. now apply (mul_mod32_inj 1000000007 2068349879).
  - rewrite (bit_rotate_state a Ha), (bit_rotate_state b Hb).
    cbn [val set_val]. now apply rotl13_inj.
  - rewrite (avalanche_val a Ha), (avalanche_val b Hb). now apply fmix32_inj.
  - rewrite (rounds_val a Ha), (rounds_val b Hb). now apply iter_fmix32_inj.
  - intros Hstr. split; [| split].
    + rewrite Hca, Hcb, Hstr. now apply add_mod32_inj.
    + rewrite (xor_fold_state a), (xor_fold_state b), Hstr. cbn [val set_val].
      rewrite !Z.mod_small by assumption. apply lxor_inj_l.
    + rewrite Hqa, Hqb, Hstr. now apply add_mod32_inj.
  - intros Hsalt.
    rewrite (salt_inject_val a Ha), (salt_inject_val b Hb), Hsalt.
    apply lxor_inj_l.
Qed.

Lemma mixing_steps_injective_witness :
  let a := mkState (ustr "pw") 5 (ustr "s") EmptyString in
  let b := mkState (ustr "other") 5 (ustr "t") EmptyString in
  val (fst (Steps.avalanche a)) = val (fst (Steps.avalanche b)) /\ val a = val b.
Proof.
  intros a b.
  assert (H : val (fst (Steps.avalanche a)) = val (fst (Steps.avalanche b)))
    by (vm_compute; reflexivity).
  split; [exact H |].
  refine (proj1 (proj2 (proj2 (proj2 (mixing_steps_injective a b _ _)))) H);
    cbn; lia.
Defined.

(** ** Avalanche and rounds *)

Lemma avalanche_state (st : HashState) :
  uint32 (val st) -> fst (Steps.avalanche st) = set_val st (fmix32 (val st)).
Proof.
  intros Hst. unfold Steps.avalanche. cbv zeta. unfold store. cbn [fst].
  f_equal.
  rewrite !JSFacts.ushr_0, MixFacts.mix_u, JSFacts.toUint32_idem.
  now rewrite JSFacts.toUint32_small.
Qed.

Lemma rounds_state (st : HashState) :
  uint32 (val st) ->
  fst (Steps.rounds st) = set_val st (Nat.iter 8 fmix32 (val st)).
Proof.
  intros Hst. unfold Steps.rounds. cbv zeta. unfold store. cbn [fst].
  f_equal.
  rewrite JSFacts.ushr_0, MixFacts.iter_mix_u.
  now rewrite JSFacts.toUint32_small.
Qed.

Lemma run_steps_avalanche (n : nat) :
  forall st, uint32 (val st) ->
    exists outs tr,
      run_steps (repeat "avalanche"%string n) st
      = Ok (set_val st (Nat.iter n fmix32 (val st)), outs, tr).
Proof.
  induction n as [| n IH]; intros st Hst.
  - exists [], []. simpl. now rewrite set_val_id.
  - cbn [repeat run_steps].
    change (lookup "avalanche" STEPS)
      with (Some (mkStep "⚡ Avalanche Diffusion" Steps.avalanche)).
    cbn [run].
    pose proof (avalanche_state st Hst) as Hfst.
    destruct (Steps.avalanche st) as [st1 r]. cbn [fst] in Hfst. subst st1.
    destruct (IH (set_val st (fmix32 (val st)))) as (outs & tr & Hrun).
    { apply MixFacts.fmix32_uint32. }
    rewrite Hrun. cbn [bind val set_val str salt hexStr].
    rewrite Nat.iter_succ_r.
    eexists. eexists. reflexivity.
Qed.

(** X11.  On an accumulator in [0, 2^32) the [avalanche] step stores the
    finalize formula of the accumulator, computed on unsigned 32-bit
    words, and one [rounds] step leaves the state that a pipeline of
    eight [avalanche] steps leaves. *)
Theorem rounds_is_eight_avalanches (st : HashState) :
  0 <= val st < 2 ^ 32 ->
  val (fst (Steps.avalanche st)) = fmix32 (val st) /\
  val (fst (Steps.rounds st)) = Nat.iter 8 fmix32 (val st) /\
  exists outs tr,
    run_steps (repeat "avalanche"%string 8) st = Ok (fst (Steps.rounds st), outs, tr).
Proof.
  intros Hst. split; [now apply avalanche_val |]. split; [now apply rounds_val |].
  rewrite (rounds_state st Hst). apply run_steps_avalanche. exact Hst.
Qed.

Lemma rounds_is_eight_avalanches_witness :
  let st := mkState (ustr "ab") 37305421 (ustr "") EmptyString in
  val (fst (Steps.avalanche st)) = 4265661133.
Proof.
  intros st.
  refine (proj1 (rounds_is_eight_avalanches st _)). cbn. lia.
Defined.

(** ** Modulo trim *)

Lemma modulo_trim_state (s : HashState) :
  0 <= val s -> fst (Steps.modulo_trim s) = set_val s (val s mod 65536).
Proof.
  intros Hs. unfold Steps.modulo_trim, store. cbn [fst].
  rewrite (rem_nonneg 65536); [reflexivity | reflexivity | exact Hs].
Qed.

(** X12.  On an accumulator in [0, 2^32), [modulo_trim] keeps its low 16
    bits: the result is the accumulator modulo 65536, below 65536, and a
    second [modulo_trim] changes nothing; accumulators that differ by a
    multiple of 65536 are merged. *)
Theorem modulo_trim_spec (st : HashState) :
  0 <= val st < 2 ^ 32 ->
  val (fst (Steps.modulo_trim st)) = val st mod 65536 /\
  0 <= val (fst (Steps.modulo_trim st)) < 65536 /\
  fst (Steps.modulo_trim (fst (Steps.modulo_trim st))) = fst (Steps.modulo_trim st) /\
  (forall k, 0 <= val st + 65536 * k < 2 ^ 32 ->
     fst (Steps.modulo_trim (set_val st (val st + 65536 * k)))
     = fst (Steps.modulo_trim st)).
Proof.
  intros Hst.
  pose proof (Z.mod_pos_bound (val st) 65536 eq_refl) as Hb.
  rewrite (modulo_trim_state st) by lia.
  split; [reflexivity |]. split; [exact Hb |]. split.
  - rewrite modulo_trim_state by exact (proj1 Hb).
    unfold set_val. cbn [val str salt hexStr].
    now rewrite Z.mod_mod by discriminate.
  - intros k Hk. rewrite modulo_trim_state by exact (proj1 Hk).
    unfold set_val. cbn [val str salt hexStr].
    now rewrite (Z.mul_comm 65536 k), Z.mod_add by discriminate.
Qed.

Lemma modulo_trim_spec_witness :
  let st := mkState (ustr "ab") 3735928559 (ustr "") EmptyString in
  val (fst (Steps.modulo_trim st)) = 48879.
Proof.
  intros st.
  refine (proj1 (modulo_trim_spec st _)). cbn. lia.
Defined.

(** ** Counting different characters *)

Lemma differing_sym (a : string) : forall b, differing a b = differing b a.
Proof.
  induction a as [| x a IH]; intros [| y b]; cbn [differing]; try reflexivity.
  now rewrite IH, Ascii.eqb_sym.
Qed.

Lemma differing_bounds (a : string) :
  forall b, 0 <= differing a b <= Z.min (slength a) (slength b).
Proof.
  unfold slength.
  induction a as [| x a IH]; intros [| y b]; cbn [differing String.length];
    try lia.
  specialize (IH b). destruct (Ascii.eqb x y); lia.
Qed.

Lemma differing_zero (a : string) :
  forall b, String.length a = String.length b -> differing a b = 0 -> a = b.
Proof.
  induction a as [| x a IH]; intros [| y b] Hlen Hd; cbn in Hlen;
    try discriminate; [reflexivity |].
  cbn [differing] in Hd. pose proof (differing_bounds a b) as Hb.
  destruct (Ascii.eqb_spec x y) as [-> | Hne]; [| lia].
  f_equal. apply IH; [now injection Hlen | lia].
Qed.

(** X13.  [countDifferentChars] behaves as a distance between strings: it
    is symmetric, it is 0 exactly on equal strings, and it lies between
    the difference of the lengths and the longer length. *)
Theorem countDifferentChars_distance (a b : string) :
  countDifferentChars a b = countDifferentChars b a /\
  (countDifferentChars a b = 0 <-> a = b) /\
  Z.abs (slength a - slength b) <= countDifferentChars a b
    <= Z.max (slength a) (slength b).
Proof.
  unfold countDifferentChars.
  pose proof (differing_bounds a b) as Hb.
  split; [| split].
  - rewrite differing_sym. f_equal.
    rewrite <- Z.abs_opp. f_equal. ring.
  - split.
    + intros H0. apply differing_zero; [| lia].
      unfold slength in *. lia.
    + intros ->. now rewrite differing_refl, Z.sub_diag.
  - lia.
Qed.

(** ** Flipping a character *)

Lemma chars_bmp (s : ustring) :
  Forall (fun u => isLeadingSurrogate u = false) s ->
  chars s = map (fun u => [u]) s.
Proof.
  induction s as [| u rest IH]; intros Hs; [reflexivity |].
  inversion Hs as [| ? ? Hu Hrest]; subst. specialize (IH Hrest).
  cbn [chars map]. destruct rest as [| l rest']; [reflexivity |].
  rewrite Hu. cbn [andb]. now rewrite IH.
Qed.

Lemma concat_singletons {A : Type} (l : list A) :
  List.concat (map (fun u => [u]) l) = l.
Proof. induction l as [| x l IH]; cbn; [reflexivity | now rewrite IH]. Qed.

Lemma array_set_map {A B : Type} (f : A -> B) (l : list A) :
  forall i x, array_set (map f l) i (f x) = map f (array_set l i x).
Proof.
  induction l as [| a l IH]; intros [| i] x; cbn; try reflexivity.
  now rewrite IH.
Qed.

Lemma array_set_singletons {A : Type} (l : list A) (i : nat) (x : A) :
  array_set (map (fun u => [u]) l) i [x] = map (fun u => [u]) (array_set l i x).
Proof. exact (array_set_map (fun u => [u]) l i x). Qed.

Lemma length_array_set {A : Type} (l : list A) :
  forall i x, List.length (array_set l i x) = List.length l.
Proof.
  induction l as [| a l IH]; intros [| i] x; cbn; try reflexivity.
  now rewrite IH.
Qed.

Lemma nth_error_array_set {A : Type} (l : list A) :
  forall i x j,
    (i < List.length l)%nat ->
    nth_error (array_set l i x) j = if Nat.eqb j i then Some x else nth_error l j.
Proof.
  induction l as [| a l IH]; intros i x j Hi; cbn in Hi; [lia |].
  destruct i as [| i], j as [| j]; cbn; try reflexivity.
  apply IH. lia.
Qed.

Lemma array_get_None {A : Type} (arr : list A) (idx : Z) :
  array_get arr idx = None <-> idx < 0 \/ Z.of_nat (List.length arr) <= idx.
Proof.
  unfold array_get. destruct (Z.ltb_spec idx 0) as [Hneg | Hpos].
  - split; [now left | reflexivity].
  - rewrite nth_error_None. lia.
Qed.

(** X14.  [flipChar] raises a [TypeError] exactly when the index is
    negative or not below the number of characters of the string; on a
    string without surrogate pairs and an index inside it, it returns
    the string with the code unit at that index increased by one modulo
    2^16 and every other code unit in place. *)
Theorem flipChar_spec (str : ustring) (idx : Z) :
  (flipChar str idx = Throw TypeError
   <-> idx < 0 \/ Z.of_nat (List.length (chars str)) <= idx) /\
  (Forall (fun u => isLeadingSurrogate u = false) str ->
   0 <= idx < ulength str ->
   exists u str',
     nth_error str (Z.to_nat idx) = Some u /\
     flipChar str idx = Ok str' /\
     List.length str' = List.length str /\
     (forall j, nth_error str' j
                = if Nat.eqb j (Z.to_nat idx) then Some ((u + 1) mod 65536)
                  else nth_error str j)).
Proof.
  split.
  - unfold flipChar. cbv zeta. rewrite <- array_get_None.
    destruct (array_get (chars str) idx); split; congruence.
  - intros Hbmp Hidx. unfold flipChar, ulength in *. cbv zeta.
    rewrite (chars_bmp str Hbmp).
    assert (Hi : (Z.to_nat idx < List.length str)%nat) by lia.
    destruct (nth_error str (Z.to_nat idx)) as [u |] eqn:Hu;
      [| apply nth_error_None in Hu; lia].
    exists u, (array_set str (Z.to_nat idx) (JS.toUint16 (u + 1))).
    split; [reflexivity |]. split.
    + unfold array_get. destruct (Z.ltb_spec idx 0) as [Hneg | _]; [lia |].
      rewrite nth_error_map, Hu. cbn [option_map]. cbv beta iota.
      cbn [charCodeAt0 hd]. unfold ustring.
      now rewrite array_set_singletons, concat_singletons.
    + split; [apply length_array_set |].
      intros j. now apply nth_error_array_set.
Qed.

Lemma flipChar_spec_witness :
  exists u str',
    nth_error (ustr "abc") (Z.to_nat 1) = Some u /\
    flipChar (ustr "abc") 1 = Ok str' /\
    List.length str' = List.length (ustr "abc") /\
    (forall j, nth_error str' j
               = if Nat.eqb j (Z.to_nat 1) then Some ((u + 1) mod 65536)
                 else nth_error (ustr "abc") j).
Proof.
  apply (proj2 (flipChar_spec (ustr "abc") 1)).
  - repeat constructor.
  - cbn. lia.
Defined.

(** ** When the avalanche report completes *)

Lemma length_chars_upto (n : nat) :
  forall s, (List.length s <= n)%nat ->
    (List.length (chars s) <= List.length s)%nat /\
    (s <> [] -> (1 <= List.length (chars s))%nat).
Proof.
  induction n as [| n IH]; intros s Hn.
  - destruct s; [split; [cbn; lia | congruence] | cbn in Hn; lia].
  - destruct s as [| u rest]; [split; [cbn; lia | congruence] |].
    cbn [chars]. destruct rest as [| l rest'].
    + split; [cbn; lia | intros _; cbn; lia].
    + destruct (isLeadingSurrogate u && isTrailingSurrogate l).
      * destruct (IH rest') as [H _]; [cbn in Hn; lia |].
        split; [cbn [List.length] in *; lia | intros _; cbn [List.length]; lia].
      * destruct (IH (l :: rest')) as [H _]; [cbn in Hn |- *; lia |].
        split; [cbn [List.length] in *; lia | intros _; cbn [List.length]; lia].
Qed.

(** The iterator yields at most one character per code unit, and at
    least one on a string that is not empty. *)
Lemma length_chars (s : ustring) :
  (List.length (chars s) <= List.length s)%nat /\
  (s <> [] -> (1 <= List.length (chars s))%nat).
Proof. exact (length_chars_upto (List.length s) s (Nat.le_refl _)). Qed.

Lemma flipChar_throws (str : ustring) (idx : Z) :
  idx < 0 \/ Z.of_nat (List.length (chars str)) <= idx ->
  flipChar str idx = Throw TypeError.
Proof.
  intros H. apply array_get_None in H. unfold flipChar. cbv zeta.
  now rewrite H.
Qed.

Lemma flipChar_returns (str : ustring) (idx : Z) :
  0 <= idx < Z.of_nat (List.length (chars str)) ->
  exists str', flipChar str idx = Ok str'.
Proof.
  intros H. unfold flipChar. cbv zeta.
  destruct (array_get (chars str) idx) as [c |] eqn:Hc.
  - eexists. reflexivity.
  - apply array_get_None in Hc. lia.
Qed.

(** The only exception of the modelled code. *)
Lemma throw_TypeError {A : Type} (r : result A) :
  (exists a, r = Ok a) \/ r = Throw TypeError.
Proof. destruct r as [a | []]; [left; now exists a | now right]. Qed.

(** The three mutations can all be made on a password that is not empty
    and has no surrogate pair ... *)
Lemma avalanche_tests_returns (password : ustring) :
  password <> [] -> List.length (chars password) = List.length password ->
  exists pw1 pw2 pw3,
    avalanche_tests password
    = Ok [ ("Original"%string, password);
           ("Flip 1st char"%string, pw1);
           ("Flip mid char"%string, pw2);
           ("Flip last char"%string, pw3) ].
Proof.
  intros Hne Heq.
  assert (Hlen : 1 <= ulength password).
  { unfold ulength. destruct password; [congruence | cbn [List.length]; lia]. }
  assert (Hhalf : 0 <= ulength password / 2 < ulength password).
  { split; [apply Z.div_pos; lia | apply Z.div_lt_upper_bound; lia]. }
  unfold avalanche_tests.
  destruct (flipChar_returns password 0) as [pw1 H1];
    [rewrite Heq; fold (ulength password); lia |].
  destruct (flipChar_returns password (ulength password / 2)) as [pw2 H2];
    [rewrite Heq; fold (ulength password); lia |].
  destruct (flipChar_returns password (ulength password - 1)) as [pw3 H3];
    [rewrite Heq; fold (ulength password); lia |].
  rewrite H1, H2, H3. cbn [bind]. now exists pw1, pw2, pw3.
Qed.

(** ... and on no other. *)
Lemma avalanche_tests_throws (password : ustring) :
  ~ (password <> [] /\ List.length (chars password) = List.length password) ->
  avalanche_tests password = Throw TypeError.
Proof.
  intros Hnot. destruct (length_chars password) as [Hle Hpos].
  unfold avalanche_tests.
  destruct password as [| u rest] eqn:Hpw.
  - now rewrite (flipChar_throws [] 0) by (right; cbn; lia).
  - rewrite <- Hpw in *.
    assert (Hlt : (List.length (chars password) < List.length password)%nat).
    { assert (password <> []) by (rewrite Hpw; discriminate).
      destruct (Nat.eq_dec (List.length (chars password)) (List.length password));
        [tauto | lia]. }
    rewrite (flipChar_throws password (ulength password - 1))
      by (right; unfold ulength; lia).
    destruct (throw_TypeError (flipChar password 0)) as [[pw1 ->] | ->];
      [| reflexivity].
    cbn [bind].
    destruct (throw_TypeError (flipChar password (ulength password / 2)))
      as [[pw2 ->] | ->]; reflexivity.
Qed.

Lemma avalanche_rows_returns (base : string) (salt : ustring) (steps : list string) :
  valid_pipeline steps ->
  forall tests,
    exists rows,
      avalanche_rows base salt steps tests = Ok rows /\
      List.length rows = List.length tests /\
      Forall (fun row =>
                av_base_length row = slength base /\
                av_diff row = countDifferentChars base (av_hash row)) rows.
Proof.
  intros Hv. induction tests as [| [label pw] tests (rows & Hrows & Hlen & Hall)].
  - exists []. repeat split. constructor.
  - cbn [avalanche_rows].
    destruct (runHash_valid pw salt steps Hv) as (r & Hr & _).
    rewrite Hr, Hrows. cbn [bind].
    eexists. split; [reflexivity |]. split; [cbn; now rewrite Hlen |].
    constructor; [split; reflexivity | exact Hall].
Qed.

Lemma avalanche_rows_head (base : string) (salt : ustring) (steps : list string)
    (label : string) (pw : ustring) (tests : list (string * ustring))
    (r : RunResult) (rows : list AvRow) :
  runHash pw salt steps = Ok r ->
  avalanche_rows base salt steps ((label, pw) :: tests) = Ok rows ->
  nth_error rows 0
  = Some (mkRow label (finalHash r) (countDifferentChars base (finalHash r))
            (slength base)).
Proof.
  intros Hr Hrows. cbn [avalanche_rows] in Hrows. rewrite Hr in Hrows.
  cbn [bind] in Hrows.
  destruct (avalanche_rows base salt steps tests) as [rows' |]; [| discriminate].
  cbn [bind] in Hrows. injection Hrows as <-. reflexivity.
Qed.

(** X15.  On a valid pipeline [runAvalanche] completes exactly when the
    password is not empty and holds no surrogate pair, and raises a
    [TypeError] otherwise: [flipChar] indexes the characters of the
    password with positions counted in code units.  When it completes it
    gives four rows, each comparing against the digest of the password
    itself, the first of them with no difference. *)
Theorem runAvalanche_completes_iff (password salt : ustring) (steps : list string) :
  valid_pipeline steps ->
  ((exists rows, runAvalanche password salt steps = Ok rows)
   <-> password <> [] /\ List.length (chars password) = List.length password) /\
  (~ (password <> [] /\ List.length (chars password) = List.length password)
   -> runAvalanche password salt steps = Throw TypeError) /\
  (forall rows,
      runAvalanche password salt steps = Ok rows ->
      exists r,
        runHash password salt steps = Ok r /\
        List.length rows = 4%nat /\
        nth_error rows 0
        = Some (mkRow "Original" (finalHash r) 0 (slength (finalHash r))) /\
        Forall (fun row =>
                  av_base_length row = slength (finalHash r) /\
                  av_diff row = countDifferentChars (finalHash r) (av_hash row))
               rows).
Proof.
  intros Hv.
  destruct (runHash_valid password salt steps Hv) as (r & Hr & _).
  assert (Hbad : ~ (password <> [] /\
                    List.length (chars password) = List.length password)
                 -> runAvalanche password salt steps = Throw TypeError).
  { intros Hnot. unfold runAvalanche. rewrite Hr. cbn [bind].
    now rewrite (avalanche_tests_throws password Hnot). }
  assert (Hgood : password <> [] /\
                  List.length (chars password) = List.length password ->
                  exists rows,
                    runAvalanche password salt steps = Ok rows /\
                    List.length rows = 4%nat /\
                    nth_error rows 0
                    = Some (mkRow "Original" (finalHash r) 0 (slength (finalHash r))) /\
                    Forall (fun row =>
                              av_base_length row = slength (finalHash r) /\
                              av_diff row
                              = countDifferentChars (finalHash r) (av_hash row))
                           rows).
  { intros [Hne Heq].
    destruct (avalanche_tests_returns password Hne Heq)
      as (pw1 & pw2 & pw3 & Ht).
    unfold runAvalanche. rewrite Hr. cbn [bind]. rewrite Ht. cbn [bind].
    set (tests := [_; _; _; _]).
    destruct (avalanche_rows_returns (finalHash r) salt steps Hv tests)
      as (rows & Hrows & Hlen & Hall).
    exists rows. split; [exact Hrows |]. split; [exact Hlen |].
    split; [| exact Hall].
    subst tests.
    rewrite (avalanche_rows_head _ _ _ _ _ _ r rows Hr Hrows).
    now rewrite countDifferentChars_refl. }
  assert (Hdec : (password <> [] /\
                  List.length (chars password) = List.length password) \/
                 ~ (password <> [] /\
                    List.length (chars password) = List.length password)).
  { destruct password as [| u rest]; [right; tauto |].
    destruct (Nat.eq_dec (List.length (chars (u :: rest))) (List.length (u :: rest)));
      [left; split; [discriminate | assumption] | right; tauto]. }
  split; [| split].
  - split.
    + intros [rows Hrows]. destruct Hdec as [Hok | Hnot]; [exact Hok |].
      rewrite (Hbad Hnot) in Hrows. discriminate.
    + intros Hok. destruct (Hgood Hok) as (rows & Hrows & _). now exists rows.
  - exact Hbad.
  - intros rows Hrows. exists r. split; [exact Hr |].
    destruct Hdec as [Hok | Hnot].
    + destruct (Hgood Hok) as (rows' & Hrows' & H).
      rewrite Hrows in Hrows'. injection Hrows' as <-. exact H.
    + rewrite (Hbad Hnot) in Hrows. discriminate.
Qed.

Lemma runAvalanche_completes_iff_witness :
  runAvalanche [55357; 56832] (ustr "") ["charcode_sum"%string] = Throw TypeError.
Proof.
  refine (proj1 (proj2 (runAvalanche_completes_iff [55357; 56832] (ustr "")
                          ["charcode_sum"%string] _)) _).
  - repeat constructor. discriminate.
  - intros [_ H]. discriminate H.
Defined.

(** ** Presets *)

(** A valid pipeline whose only [hex_encode] step is its last one gives
    the eight hexadecimal digits of the final accumulator. *)
Lemma final_hex_digest (password salt : ustring) (pre : list string) :
  valid_pipeline pre -> hex_steps pre = 0%nat ->
  exists r,
    runHash password salt (pre ++ ["hex_encode"%string]) = Ok r /\
    finalHash r = hex8 (stateVal r).
Proof.
  intros Hv H0. unfold runHash. set (st0 := set_val _ _).
  rewrite run_steps_app.
  destruct (run_steps_total pre Hv st0) as (st1 & o1 & t1 & Hrun).
  pose proof (run_steps_uint32 pre st0 st1 o1 t1 (seed_uint32 password) Hrun)
    as Hval.
  destruct (run_steps_frame pre st0 st1 o1 t1 Hrun) as (_ & _ & Hh).
  specialize (Hh H0). change (hexStr st0) with EmptyString in Hh.
  rewrite Hrun. cbn [bind run_steps]. rewrite lookup_hex_encode. cbn [run].
  pose proof (hex_encode_hexStr st1) as Hhex.
  pose proof (hex_encode_val st1) as Hv1.
  destruct (Steps.hex_encode st1) as [st2 r2]. cbn [fst] in Hhex, Hv1.
  cbn [bind]. eexists. split; [reflexivity |]. cbn [finalHash stateVal].
  rewrite Hhex, Hh, Hv1, padStart8_toString16 by exact Hval.
  cbn [append].
  pose proof (length_hex8 (val st1)) as Hlen.
  destruct (hex8 (val st1)); [discriminate | reflexivity].
Qed.

(** X16.  Each of the three presets runs on every password and salt and
    gives a digest of eight hexadecimal digits, those of its final
    accumulator.  In [djb2] the leading [charcode_sum] and in [secure]
    the leading [salt_inject] change nothing: the next step,
    [polynomial_roll], overwrites the accumulator. *)
Theorem presets_digest (password salt : ustring) (preset : list string) :
  In preset [PRESETS.simple; PRESETS.djb2; PRESETS.secure] ->
  (exists r,
      runHash password salt preset = Ok r /\
      finalHash r = hex8 (stateVal r) /\
      String.length (finalHash r) = 8%nat /\
      allHex (finalHash r) = true) /\
  (forall r r',
      runHash password salt preset = Ok r ->
      runHash password salt (tl preset) = Ok r' ->
      preset <> PRESETS.simple ->
      finalHash r' = finalHash r).
Proof.
  intros Hin. split.
  - assert (H : exists r, runHash password salt preset = Ok r /\
                          finalHash r = hex8 (stateVal r)).
    { destruct Hin as [<- | [<- | [<- | []]]].
      - apply (final_hex_digest password salt ["charcode_sum"; "xor_fold"]%string);
          [repeat constructor; discriminate | reflexivity].
      - apply (final_hex_digest password salt
                 ["charcode_sum"; "polynomial_roll"; "prime_multiply"]%string);
          [repeat constructor; discriminate | reflexivity].
      - apply (final_hex_digest password salt
                 ["salt_inject"; "polynomial_roll"; "avalanche"; "modular_exp";
                  "fibonacci_mix"; "rounds"; "avalanche"]%string);
          [repeat constructor; discriminate | reflexivity]. }
    destruct H as (r & Hr & Hf). exists r.
    split; [exact Hr |]. split; [exact Hf |]. rewrite Hf.
    split; [apply length_hex8 | apply allHex_fixedHex].
  - intros r r' Hr Hr' Hnot.
    destruct Hin as [<- | [<- | [<- | []]]]; [contradiction | |].
    + destruct (polynomial_roll_text_prefix password salt ["charcode_sum"%string]
                  ["prime_multiply"; "hex_encode"]%string r eq_refl Hr)
        as (r2 & Hr2 & Hf & _).
      cbn [tl PRESETS.djb2] in Hr'. rewrite Hr' in Hr2. now injection Hr2 as <-.
    + destruct (polynomial_roll_text_prefix password salt ["salt_inject"%string]
                  ["avalanche"; "modular_exp"; "fibonacci_mix"; "rounds";
                   "avalanche"; "hex_encode"]%string r eq_refl Hr)
        as (r2 & Hr2 & Hf & _).
      cbn [tl PRESETS.secure] in Hr'. rewrite Hr' in Hr2. now injection Hr2 as <-.
Qed.

Lemma presets_digest_witness :
  exists r,
    runHash (ustr "password") (ustr "") PRESETS.djb2 = Ok r /\
    finalHash r = hex8 (stateVal r) /\
    String.length (finalHash r) = 8%nat /\
    allHex (finalHash r) = true.
Proof.
  apply (proj1 (presets_digest (ustr "password") (ustr "") PRESETS.djb2
                  (or_intror (or_introl eq_refl)))).
Defined.

(** ** The outcome of a click on the run button *)

Lemma ustr_or_password (input : ustring) :
  ustr_or input (ustr "password") <> [].
Proof. destruct input; discriminate. Qed.

(** X17.  A click on the run button has one of three outcomes.  With an
    empty pipeline it alerts and runs nothing.  With a valid pipeline
    and a password field holding no surrogate pair (an empty field stands
    for ['password']) it returns the result of [runHash] and the four
    rows of the avalanche report.  In every other case, an unknown step
    id or a surrogate pair in the password, it ends with a
    [TypeError]. *)
Theorem btn_run_click_outcome (pipeline : list string)
    (password_input salt_input : ustring) :
  let password := ustr_or password_input (ustr "password") in
  (pipeline = [] ->
   btn_run_click pipeline password_input salt_input
   = Alerted "Add at least one step to your pipeline first!") /\
  (pipeline <> [] ->
   valid_pipeline pipeline ->
   List.length (chars password) = List.length password ->
   exists r rows,
     btn_run_click pipeline password_input salt_input = Ran (Ok (r, rows)) /\
     runHash password salt_input pipeline = Ok r /\
     List.length rows = 4%nat) /\
  (pipeline <> [] ->
   ~ (valid_pipeline pipeline /\
      List.length (chars password) = List.length password) ->
   btn_run_click pipeline password_input salt_input = Ran (Throw TypeError)).
Proof.
  intros password.
  assert (Hsalt : ustr_or salt_input (ustr "") = salt_input)
    by (destruct salt_input; reflexivity).
  assert (Hcond : pipeline <> [] ->
            (Z.of_nat (List.length pipeline) =? 0) = false).
  { intros Hne. destruct pipeline; [congruence |].
    cbn [List.length]. apply Z.eqb_neq. lia. }
  split; [| split].
  - intros ->. reflexivity.
  - intros Hne Hv Hlen. unfold btn_run_click. rewrite (Hcond Hne), Hsalt.
    fold password.
    destruct (runHash_valid password salt_input pipeline Hv) as (r & Hr & _).
    destruct (avalanche_tests_returns password (ustr_or_password password_input)
                Hlen) as (pw1 & pw2 & pw3 & Ht).
    unfold runAvalanche. rewrite Hr. cbn [bind]. rewrite Ht. cbn [bind].
    set (tests := [_; _; _; _]).
    destruct (avalanche_rows_returns (finalHash r) salt_input pipeline Hv tests)
      as (rows & Hrows & Hl & _).
    rewrite Hrows. exists r, rows.
    split; [reflexivity |]. split; [reflexivity | exact Hl].
  - intros Hne Hnot. unfold btn_run_click. rewrite (Hcond Hne), Hsalt.
    fold password.
    destruct (valid_pipeline_dec pipeline) as [Hv | (k & Hin & Hk)].
    + destruct (runHash_valid password salt_input pipeline Hv) as (r & Hr & _).
      unfold runAvalanche. rewrite Hr. cbn [bind].
      rewrite avalanche_tests_throws; [reflexivity |].
      intros [_ Hlen]. apply Hnot. now split.
    + unfold runHash. now rewrite (run_steps_unknown k pipeline Hin Hk).
Qed.

Lemma btn_run_click_outcome_witness :
  exists r rows,
    btn_run_click PRESETS.simple (ustr "") (ustr "") = Ran (Ok (r, rows)) /\
    runHash (ustr "password") (ustr "") PRESETS.simple = Ok r /\
    List.length rows = 4%nat.
Proof.
  apply (proj1 (proj2 (btn_run_click_outcome PRESETS.simple (ustr "") (ustr "")))).
  - discriminate.
  - repeat constructor; discriminate.
  - reflexivity.
Defined.

(** ** Pipelines that do not read the text *)

Lemma store_same_but_text (a b : HashState) (v : Z) :
  same_but_text a b ->
  snd (store a v) = snd (store b v) /\
  same_but_text (fst (store a v)) (fst (store b v)).
Proof.
  intros (Hv & Hs & Hh). split; [reflexivity |].
  unfold same_but_text, store, set_val. cbn [fst val salt hexStr].
  repeat split; assumption.
Qed.

Ltac text_blind f :=
  intros a b Hab; pose proof Hab as (Hv & Hs & Hh);
  unfold f; cbv zeta; rewrite ?Hv, ?Hs;
  try (destruct (fold_left _ _ (_, _)));
  apply store_same_but_text; exact Hab.

Lemma catalog_ignores_text :
  Forall (fun '(k, s) => ~ In k text_steps -> ignores_text (run s)) STEPS.
Proof.
  unfold STEPS, text_steps.
  repeat apply Forall_cons; try apply Forall_nil; intros Hk; cbn [run];
    try (exfalso; apply Hk; cbn; tauto).
  - text_blind Steps.modular_exp.
  - text_blind Steps.fibonacci_mix.
  - text_blind Steps.prime_multiply.
  - text_blind Steps.bit_rotate.
  - text_blind Steps.avalanche.
  - text_blind Steps.salt_inject.
  - text_blind Steps.rounds.
  - intros a b Hab. pose proof Hab as (Hv & Hs & Hh).
    unfold Steps.hex_encode. cbv zeta. cbn [fst snd]. rewrite Hv, Hh.
    split; [reflexivity |].
    unfold same_but_text, set_hexStr. cbn [val salt hexStr].
    repeat split; assumption.
  - text_blind Steps.modulo_trim.
Qed.

Lemma run_steps_ignores_text (steps : list string) :
  (forall key, In key steps -> ~ In key text_steps) ->
  forall a b, same_but_text a b ->
    match run_steps steps a, run_steps steps b with
    | Ok (a', o, t), Ok (b', o', t') => o = o' /\ t = t' /\ same_but_text a' b'
    | Throw e, Throw e' => e = e'
    | _, _ => False
    end.
Proof.
  induction steps as [| key steps IH]; intros Hno a b Hab; cbn [run_steps].
  - split; [reflexivity | split; [reflexivity | exact Hab]].
  - destruct (lookup key STEPS) as [step |] eqn:Hk; [| reflexivity].
    assert (Hkeep : ignores_text (run step)).
    { apply lookup_In_pair in Hk.
      pose proof catalog_ignores_text as Hall. rewrite Forall_forall in Hall.
      apply (Hall _ Hk). apply Hno. now left. }
    destruct (Hkeep a b Hab) as [Hres Hst].
    destruct (run step a) as [a1 ra]. destruct (run step b) as [b1 rb].
    cbn [fst snd] in Hres, Hst. subst rb.
    assert (Hno' : forall k, In k steps -> ~ In k text_steps)
      by (intros k Hin; apply Hno; now right).
    specialize (IH Hno' a1 b1 Hst).
    destruct (run_steps steps a1) as [[[a2 oa] ta] | ea];
      destruct (run_steps steps b1) as [[[b2 ob] tb] | eb]; cbn [bind];
      try contradiction.
    + destruct IH as (-> & -> & Hst2).
      split; [reflexivity | split; [reflexivity | exact Hst2]].
    + exact IH.
Qed.

(** X18.  A pipeline with none of the four steps that read the input
    text ([charcode_sum], [polynomial_roll], [xor_fold], [ascii_square])
    hashes the length of the password only: two passwords of the same
    length get the very same result, trace included, whatever their
    characters. *)
Theorem length_only_pipelines (p1 p2 salt : ustring) (steps : list string) :
  List.length p1 = List.length p2 ->
  (forall key, In key steps -> ~ In key text_steps) ->
  runHash p1 salt steps = runHash p2 salt steps.
Proof.
  intros Hlen Hno. unfold runHash.
  assert (Hseed : seed p1 = seed p2) by (unfold seed, ulength; now rewrite Hlen).
  rewrite Hseed.
  set (a := set_val (mkState (p1 ++ salt) 0 salt EmptyString) (seed p2)).
  set (b := set_val (mkState (p2 ++ salt) 0 salt EmptyString) (seed p2)).
  assert (Hab : same_but_text a b) by (repeat split).
  pose proof (run_steps_ignores_text steps Hno a b Hab) as H.
  destruct (run_steps steps a) as [[[a' oa] ta] | ea];
    destruct (run_steps steps b) as [[[b' ob] tb] | eb]; cbn [bind];
    try contradiction.
  - destruct H as (-> & -> & (Hv & _ & Hh)). now rewrite Hv, Hh.
  - now subst.
Qed.

Lemma length_only_pipelines_witness :
  runHash (ustr "hunter2") (ustr "s") ["salt_inject"; "avalanche"; "rounds"; "hex_encode"]%string
  = runHash (ustr "aaaaaaa") (ustr "s") ["salt_inject"; "avalanche"; "rounds"; "hex_encode"]%string.
Proof.
  apply length_only_pipelines.
  - reflexivity.
  - intros key Hin Htext. cbn in Hin, Htext.
    repeat (destruct Hin as [<- | Hin];
            [repeat (destruct Htext as [Ht | Htext]; [discriminate Ht |]);
             exact Htext |]).
    exact Hin.
Defined.

(** ** The digest and the trace *)

Ltac appends_word f :=
  intros st Hst; unfold f; cbv zeta;
  try (destruct (fold_left _ _ (_, _)));
  unfold store, hex_word; cbn [fst snd display hexStr set_val];
  now rewrite append_nil_r.

Lemma catalog_hex_word :
  Forall (fun step => forall st, uint32 (val st) ->
            hexStr (fst (run step st))
            = (hexStr st ++ hex_word (snd (run step st)))%string)
         (map snd STEPS).
Proof.
  unfold STEPS. cbn [map snd].
  repeat apply Forall_cons; try apply Forall_nil; cbn [run].
  - appends_word Steps.charcode_sum.
  - appends_word Steps.polynomial_roll.
  - appends_word Steps.xor_fold.
  - appends_word Steps.modular_exp.
  - appends_word Steps.fibonacci_mix.
  - appends_word Steps.prime_multiply.
  - appends_word Steps.bit_rotate.
  - appends_word Steps.ascii_square.
  - appends_word Steps.avalanche.
  - appends_word Steps.salt_inject.
  - appends_word Steps.rounds.
  - intros st Hst. rewrite hex_encode_hexStr.
    unfold Steps.hex_encode, hex_word. cbn [snd display res_val].
    now rewrite padStart8_toString16.
  - appends_word Steps.modulo_trim.
Qed.

Lemma run_steps_hex_words (steps : list string) :
  forall st st' outs tr,
    uint32 (val st) ->
    run_steps steps st = Ok (st', outs, tr) ->
    hexStr st' = (hexStr st ++ hex_words outs)%string.
Proof.
  induction steps as [| key steps IH]; intros st st' outs tr Hst Hrun;
    cbn [run_steps] in Hrun.
  - injection Hrun as <- <- _. cbn [hex_words]. now rewrite append_nil_r.
  - destruct (lookup key STEPS) as [step |] eqn:Hk; [| discriminate].
    pose proof (step_uint32 key step st Hk Hst) as Hst1.
    assert (Hword : hexStr (fst (run step st))
                    = (hexStr st ++ hex_word (snd (run step st)))%string).
    { apply lookup_In in Hk.
      pose proof catalog_hex_word as Hall. rewrite Forall_forall in Hall.
      now apply Hall. }
    destruct (run step st) as [st1 r]. cbn [fst snd] in Hst1, Hword.
    destruct (run_steps steps st1) as [[[st2 outs2] tr2] | e] eqn:Hrest;
      cbn [bind] in Hrun; [| discriminate].
    injection Hrun as <- <- _.
    rewrite (IH st1 st2 outs2 tr2 Hst1 Hrest), Hword. cbn [hex_words].
    apply append_assoc.
Qed.

(** X19.  When a run has a [hex_encode] step, the digest is the
    concatenation, in pipeline order, of the eight-digit words of the
    values its [hex_encode] steps returned: the digest can be read off
    the step outputs. *)
Theorem digest_from_outputs (password salt : ustring) (steps : list string)
    (r : RunResult) :
  runHash password salt steps = Ok r ->
  (1 <= hex_steps steps)%nat ->
  finalHash r = hex_words (stepOutputs r).
Proof.
  unfold runHash. set (st0 := set_val _ _).
  destruct (run_steps steps st0) as [[[st' outs] tr] | e] eqn:Hrun;
    cbn [bind]; [| discriminate].
  intros Hr HN. injection Hr as <-. cbn [finalHash stepOutputs].
  pose proof (run_steps_hex_words steps st0 st' outs tr (seed_uint32 password) Hrun)
    as Hw.
  pose proof (run_steps_hexStr steps st0 st' outs tr (seed_uint32 password) Hrun)
    as Hlen.
  change (hexStr st0) with EmptyString in Hw, Hlen. cbn [append] in Hw.
  destruct (hexStr st') eqn:Hh; [cbn [String.length] in Hlen; lia | exact Hw].
Qed.

Lemma digest_from_outputs_witness :
  let r := mkRun "845f692c"
             [ mkTrace "∑ Char Code Sum" 149221787 None;
               mkTrace "P(x) Polynomial Rolling" 728085108 None;
               mkTrace "π Prime Multiply" 2220845356 None;
               mkTrace "🔡 Hex Encode" 2220845356 (Some "0x845f692c"%string) ]
             [ mkResult 149221787 None; mkResult 728085108 None;
               mkResult 2220845356 None;
               mkResult 2220845356 (Some "0x845f692c"%string) ]
             2220845356 in
  finalHash r = hex_words (stepOutputs r).
Proof.
  intros r.
  apply (digest_from_outputs (ustr "password") (ustr "") PRESETS.djb2 r).
  - reflexivity.
  - vm_compute. lia.
Defined.

(** ** The digest without hex_encode *)

(** X20.  On a valid pipeline without [hex_encode] the digest is made of
    the eight digits of the final accumulator followed by the eight
    digits of its finalize formula, 16 hexadecimal digits in all,
    whenever that formula gives a word below 2^31; when it gives a word
    with the top bit set the digest holds a minus sign. *)
Theorem no_hex_digest (password salt : ustring) (steps : list string) :
  valid_pipeline steps ->
  hex_steps steps = 0%nat ->
  exists r,
    runHash password salt steps = Ok r /\
    (fmix32 (stateVal r) < 2 ^ 31 ->
     finalHash r = (hex8 (stateVal r) ++ hex8 (fmix32 (stateVal r)))%string /\
     String.length (finalHash r) = 16%nat /\
     allHex (finalHash r) = true) /\
    (2 ^ 31 <= fmix32 (stateVal r) -> allHex (finalHash r) = false).
Proof. exact (runHash_no_hex password salt steps). Qed.

Lemma no_hex_digest_witness :
  exists r,
    runHash (ustr "a") (ustr "") ["charcode_sum"%string] = Ok r /\
    finalHash r = "811c9e260ecbfa83"%string.
Proof.
  destruct (no_hex_digest (ustr "a") (ustr "") ["charcode_sum"%string])
    as (r & Hr & Hlow & _).
  - repeat constructor. discriminate.
  - reflexivity.
  - exists r. split; [exact Hr |].
    assert (Hval : stateVal r = 2166136358).
    { assert (H : runHash (ustr "a") (ustr "") ["charcode_sum"%string]
                  = Ok (mkRun "811c9e260ecbfa83"
                          [mkTrace "∑ Char Code Sum" 2166136358 None]
                          [mkResult 2166136358 None] 2166136358))
        by reflexivity.
      rewrite Hr in H. now injection H as ->. }
    rewrite Hval in Hlow. destruct Hlow as (Hf & _).
    + vm_compute. reflexivity.
    + rewrite Hf. reflexivity.
Defined.
